(** * Rush Hour solver (rush_hour.py): shallow embedding and verification

    The Python module solves the sliding-block puzzle by a breadth-first
    search over tuples of cars.  The embedding below follows the module
    function by function:

    - [Car.t], [Direction], [ENDPOINT]: the data model (lines 10-17);
    - [get_board]: the occupancy grid, with Python list indexing (negative
      indices wrap, out of range raises [IndexError]);
    - [update_cars_tuple], [possible_moves]: the move generator, a Python
      generator modelled as what it yields followed by what it raises;
    - [print_moves]: the log records of the move log formatter;
    - [run]: the search loop over a deque and a set of seen boards, with
      fuel for the [while];
    - [read_setup], [main]: the reader and the program entry point. *)

From stdpp Require Import gmap strings list.
From Stdlib Require Import ZArith Lia Ascii.

Local Open Scope Z_scope.

(** ** Exceptions and a small error monad *)

Inductive exn := ValueError | IndexError | TypeError.

Inductive res (A : Type) : Type :=
| Ok (a : A)
| Raise (e : exn).
Arguments Ok {A} a.
Arguments Raise {A} e.

Definition res_bind {A B} (m : res A) (k : A -> res B) : res B :=
  match m with
  | Ok a => k a
  | Raise e => Raise e
  end.

Notation "'do' x <- m ; k" := (res_bind m (fun x => k))
  (at level 10, x name, m at level 100, k at level 200).

Fixpoint foldM {A B} (f : B -> A -> res B) (b : B) (l : list A) : res B :=
  match l with
  | [] => Ok b
  | a :: l' => do b' <- f b a; foldM f b' l'
  end.

Fixpoint mapM {A B} (f : A -> res B) (l : list A) : res (list B) :=
  match l with
  | [] => Ok []
  | a :: l' => do b <- f a; do bs <- mapM f l'; Ok (b :: bs)
  end.

(** ** Python list indexing

    [l[i]] for an integer [i]: indices [-len .. -1] count from the end,
    anything outside [-len .. len-1] raises [IndexError]. *)

Definition py_index {A} (l : list A) (i : Z) : res nat :=
  let n := Z.of_nat (length l) in
  if decide (0 <= i < n) then Ok (Z.to_nat i)
  else if decide (- n <= i < 0) then Ok (Z.to_nat (n + i))
  else Raise IndexError.

Definition py_getitem {A} (l : list A) (i : Z) : res A :=
  do k <- py_index l i;
  match l !! k with
  | Some a => Ok a
  | None => Raise IndexError
  end.

Definition py_setitem {A} (l : list A) (i : Z) (v : A) : res (list A) :=
  do k <- py_index l i; Ok (<[k := v]> l).

(** [range(n)] for an integer [n]: empty when [n <= 0]. *)
Definition range (n : Z) : list Z := Z.of_nat <$> seq 0 (Z.to_nat n).

(** ** Data model *)

Definition BOARD_SIZE : Z := 6.
Definition EMPTY_CELL : string := " ".

(** The [direction] field of a car is untyped in the source: the two enum
    members, or any other value, for which the [else] branches raise. *)
Inductive Direction :=
| HORIZONTAL
| VERTICAL
| NOT_A_DIRECTION (v : string).

Module Car.
Record t := mk { name : string; x : Z; y : Z; size : Z; direction : Direction }.
End Car.

(** A state is the tuple of cars, in the order they were given. *)
Abbreviation State := (list Car.t).

Definition ENDPOINT : Car.t := Car.mk "r" 2 4 2 HORIZONTAL.

#[global] Instance Direction_eq_dec : EqDecision Direction.
Proof. solve_decision. Defined.

#[global] Instance Car_eq_dec : EqDecision Car.t.
Proof. solve_decision. Defined.

#[global] Instance Direction_countable : Countable Direction.
Proof.
  refine (inj_countable'
            (fun d => match d with
                      | HORIZONTAL => inl true
                      | VERTICAL => inl false
                      | NOT_A_DIRECTION v => inr v
                      end)
            (fun s => match s with
                      | inl true => HORIZONTAL
                      | inl false => VERTICAL
                      | inr v => NOT_A_DIRECTION v
                      end) _).
  by intros [].
Defined.

#[global] Instance Car_countable : Countable Car.t.
Proof.
  refine (inj_countable'
            (fun c => (Car.name c, Car.x c, Car.y c, Car.size c, Car.direction c))
            (fun p => match p with (n, a, b, s, d) => Car.mk n a b s d end) _).
  by intros [].
Defined.

(** ** get_board *)

Abbreviation Board := (list (list string)).

Definition empty_board : Board :=
  replicate (Z.to_nat BOARD_SIZE) (replicate (Z.to_nat BOARD_SIZE) EMPTY_CELL).

(** [board[r][c] = v]: the row object is fetched, then updated in place. *)
Definition board_set (board : Board) (r c : Z) (v : string) : res Board :=
  do k <- py_index board r;
  match board !! k with
  | Some row => do row' <- py_setitem row c v; Ok (<[k := row']> board)
  | None => Raise IndexError
  end.

(** [board[r][c]] *)
Definition board_get (board : Board) (r c : Z) : res string :=
  do row <- py_getitem board r; py_getitem row c.

(** The body of the [for car in cars] loop. *)
Definition place_car (board : Board) (car : Car.t) : res Board :=
  match Car.direction car with
  | HORIZONTAL =>
      foldM (fun b i => board_set b (Car.x car) (Car.y car + i) (Car.name car))
            board (range (Car.size car))
  | VERTICAL =>
      foldM (fun b i => board_set b (Car.x car + i) (Car.y car) (Car.name car))
            board (range (Car.size car))
  | NOT_A_DIRECTION _ => Raise ValueError
  end.

Definition get_board (cars : State) : res Board :=
  foldM place_car empty_board cars.

(** ** update_cars_tuple

    [new_cars[index] = new_car] raises [IndexError] out of range; the
    index comes from [enumerate], so it is a natural number. *)
Definition update_cars_tuple (cars : State) (index : nat) (new_car : Car.t)
  : res State :=
  if decide (index < length cars)%nat then Ok (<[index := new_car]> cars)
  else Raise IndexError.

(** ** Generators

    A generator that is consumed to its end is what it yielded, in order,
    and the exception that stopped it, if any. *)
Definition gen (A : Type) : Type := list A * option exn.

Definition gen_skip {A} : gen A := ([], None).
Definition gen_raise {A} (e : exn) : gen A := ([], Some e).

Definition gen_yield {A} (r : res A) : gen A :=
  match r with
  | Ok a => ([a], None)
  | Raise e => ([], Some e)
  end.

Definition gen_seq {A} (g1 g2 : gen A) : gen A :=
  match g1 with
  | (l, None) => (l ++ g2.1, g2.2)
  | (l, Some e) => (l, Some e)
  end.

(** [if c: body] where evaluating [c] may raise. *)
Definition gen_if {A} (c : res bool) (body : gen A) : gen A :=
  match c with
  | Ok true => body
  | Ok false => gen_skip
  | Raise e => gen_raise e
  end.

(** [a and b], short-circuit. *)
Definition py_and (a : bool) (b : res bool) : res bool :=
  if a then b else Ok false.

Definition is_empty_cell (board : Board) (r c : Z) : res bool :=
  do v <- board_get board r c; Ok (bool_decide (v = EMPTY_CELL)).

(** ** possible_moves *)

(** The body of the [for i, car in enumerate(cars)] loop. *)
Definition car_moves (board : Board) (cars : State) (i : nat) (car : Car.t)
  : gen State :=
  let update_car := update_cars_tuple cars i in
  match Car.direction car with
  | HORIZONTAL =>
      gen_seq
        (gen_if (py_and (bool_decide (Car.y car + Car.size car < BOARD_SIZE))
                        (is_empty_cell board (Car.x car) (Car.y car + Car.size car)))
                (gen_yield (update_car
                   (Car.mk (Car.name car) (Car.x car) (Car.y car + 1)
                           (Car.size car) (Car.direction car)))))
        (gen_if (py_and (bool_decide (Car.y car > 0))
                        (is_empty_cell board (Car.x car) (Car.y car - 1)))
                (gen_yield (update_car
                   (Car.mk (Car.name car) (Car.x car) (Car.y car - 1)
                           (Car.size car) (Car.direction car)))))
  | VERTICAL =>
      gen_seq
        (gen_if (py_and (bool_decide (Car.x car + Car.size car < BOARD_SIZE))
                        (is_empty_cell board (Car.x car + Car.size car) (Car.y car)))
                (gen_yield (update_car
                   (Car.mk (Car.name car) (Car.x car + 1) (Car.y car)
                           (Car.size car) (Car.direction car)))))
        (gen_if (py_and (bool_decide (Car.x car > 0))
                        (is_empty_cell board (Car.x car - 1) (Car.y car)))
                (gen_yield (update_car
                   (Car.mk (Car.name car) (Car.x car - 1) (Car.y car)
                           (Car.size car) (Car.direction car)))))
  | NOT_A_DIRECTION _ => gen_raise ValueError
  end.

(** The loop over [enumerate(cars)] from index [i] on. *)
Fixpoint moves_from (board : Board) (cars : State) (i : nat) (rest : list Car.t)
  : gen State :=
  match rest with
  | [] => gen_skip
  | car :: rest' =>
      gen_seq (car_moves board cars i car) (moves_from board cars (S i) rest')
  end.

Definition possible_moves (cars : State) : gen State :=
  match get_board cars with
  | Raise e => gen_raise e
  | Ok board => moves_from board cars 0 cars
  end.

(** ** print_moves

    Each [logging.info(fmt, arg)] call is kept as its format string and
    argument; the [logging.debug] call of [run] carries the boards. *)

Inductive log_arg :=
| ArgInt (n : Z)
| ArgStr (s : string)
| ArgBoard (b : Board).

Inductive log_record :=
| LogInfo (fmt : string) (arg : log_arg)
| LogDebug (boards : list Board).

(** The four [if]s on one pair [car1, car2] with [car1 != car2]. *)
Definition car_steps (car1 car2 : Car.t) : list log_record :=
  (if decide (Car.x car1 > Car.x car2)
   then [LogInfo "%s-Up" (ArgStr (Car.name car1))] else []) ++
  (if decide (Car.x car1 < Car.x car2)
   then [LogInfo "%s-Down" (ArgStr (Car.name car1))] else []) ++
  (if decide (Car.y car1 > Car.y car2)
   then [LogInfo "%s-Left" (ArgStr (Car.name car1))] else []) ++
  (if decide (Car.y car1 < Car.y car2)
   then [LogInfo "%s-Right" (ArgStr (Car.name car1))] else []).

(** [for car1, car2 in zip(s1, s2): if car1 != car2: ...] *)
Fixpoint pair_steps (s1 s2 : State) : list log_record :=
  match s1, s2 with
  | car1 :: s1', car2 :: s2' =>
      (if decide (car1 = car2) then [] else car_steps car1 car2)
      ++ pair_steps s1' s2'
  | _, _ => []
  end.

(** The body of [for i in range(len(history) - 1)]; both indices are in
    range there. *)
Definition steps_at (history : list State) (i : Z) : list log_record :=
  match history !! Z.to_nat i, history !! Z.to_nat (i + 1) with
  | Some s1, Some s2 => pair_steps s1 s2
  | _, _ => []
  end.

Definition print_moves (history : list State) : list log_record :=
  LogInfo "Total number of steps: %d" (ArgInt (Z.of_nat (length history) - 1))
  :: concat (steps_at history <$> range (Z.of_nat (length history) - 1)).

(** ** run *)

(** A [deque] as the list of its elements from left to right. *)
Definition deque (A : Type) : Type := list A.

Definition appendleft {A} (a : A) (q : deque A) : deque A := a :: q.

(** [q.pop()]: removes and returns the rightmost element. *)
Definition pop {A} (q : deque A) : option (A * deque A) :=
  match reverse q with
  | [] => None
  | a :: r => Some (a, reverse r)
  end.

(** [q.extendleft(items)]: [appendleft] of each item in turn. *)
Definition extendleft {A} (items : list A) (q : deque A) : deque A :=
  foldl (fun q a => appendleft a q) q items.

(** What a call of [run] does: the records it logged, and whether it
    returned (always [None], here [tt]) or raised. *)
Definition run_result : Type := list log_record * res unit.

(** The [# Solution found] branch: the moves are logged, then the boards
    of the history are built for the debug record, which may raise. *)
Definition solution_found (history : list State) : run_result :=
  match mapM get_board history with
  | Ok boards => (print_moves history ++ [LogDebug boards], Ok tt)
  | Raise e => (print_moves history, Raise e)
  end.

(** The [while queue:] loop; [None] is "out of fuel". *)
Fixpoint run_loop (fuel : nat) (boards_seen : gset State)
    (queue : deque (State * list State)) : option run_result :=
  match fuel with
  | O => None
  | S fuel' =>
      match pop queue with
      | None => Some ([], Ok tt)
      | Some ((board, history), queue') =>
          if decide (board ∈ boards_seen) then run_loop fuel' boards_seen queue'
          else
            let boards_seen' := {[board]} ∪ boards_seen in
            let history' := history ++ [board] in
            if decide (ENDPOINT ∈ board) then Some (solution_found history')
            else
              match possible_moves board with
              | (moves, None) =>
                  run_loop fuel' boards_seen'
                    (extendleft ((fun move => (move, history')) <$> moves) queue')
              | (_, Some e) => Some ([], Raise e)
              end
      end
  end.

Definition run (fuel : nat) (initial_cars : State) : option run_result :=
  run_loop fuel ∅ (appendleft (initial_cars, []) []).

(** ** read_setup *)

(** The built-in [int] on a string, for ASCII text: surrounding whitespace
    (the space and the characters 9 to 13) is stripped, then an optional
    sign and decimal digits, with single underscores allowed between
    digits, and at most [int_max_str_digits] digits; anything else is a
    [ValueError]. *)

Definition is_space (a : Ascii.ascii) : bool :=
  let n := Ascii.nat_of_ascii a in
  bool_decide (n = 32 \/ 9 <= n <= 13)%nat.

(** The default of [sys.int_max_str_digits]. *)
Definition int_max_str_digits : nat := 4300.

Definition digit_of (a : Ascii.ascii) : option Z :=
  let n := Ascii.nat_of_ascii a in
  if decide (48 <= n <= 57)%nat then Some (Z.of_nat n - 48) else None.

Fixpoint parse_digits (s : list Ascii.ascii) (acc : Z) (after_digit : bool) : option Z :=
  match s with
  | [] => if after_digit then Some acc else None
  | a :: s' =>
      match digit_of a with
      | Some d => parse_digits s' (10 * acc + d) true
      | None =>
          if decide (a = "_"%char) then
            if after_digit then parse_digits s' acc false else None
          else None
      end
  end.

Fixpoint drop_spaces (s : list Ascii.ascii) : list Ascii.ascii :=
  match s with
  | a :: s' => if is_space a then drop_spaces s' else s
  | [] => []
  end.

Definition count_digits (s : list Ascii.ascii) : nat :=
  length (filter (fun a => is_Some (digit_of a)) s).

Definition py_int (s : string) : res Z :=
  let body := reverse (drop_spaces (reverse (drop_spaces (String.list_ascii_of_string s)))) in
  let signed :=
    match body with
    | "-"%char :: ds => (-1, ds)
    | "+"%char :: ds => (1, ds)
    | ds => (1, ds)
    end in
  match parse_digits signed.2 0 false with
  | Some n =>
      if decide (int_max_str_digits < count_digits signed.2)%nat
      then Raise ValueError
      else Ok (signed.1 * n)
  | None => Raise ValueError
  end.

(** [Car._make(row)] wants exactly five fields. *)
Definition Car_make (row : list string)
  : res (string * string * string * string * string) :=
  match row with
  | [n; a; b; s; d] => Ok (n, a, b, s, d)
  | _ => Raise TypeError
  end.

(** The body of the [for car in map(Car._make, rows)] loop. *)
Definition read_car (row : list string) : res Car.t :=
  do car <- Car_make row;
  let '(n, a, b, s, d) := car in
  do direction <-
    (if decide (d = "H") then Ok HORIZONTAL
     else if decide (d = "V") then Ok VERTICAL
     else Raise ValueError);
  do a' <- py_int a;
  do b' <- py_int b;
  do s' <- py_int s;
  Ok (Car.mk n a' b' s' direction).

(** [tuple(read_setup(csv_file))] on the rows of the file. *)
Definition read_setup (rows : list (list string)) : res State :=
  mapM read_car rows.

(** ** main

    From the rows of the file on: the initial state is read, the initial
    board is built and logged, then [run] is called.  The timing record
    logged after [run] depends on the clock and is left out. *)

(** The format string ["Initial board:\n%s"], with its newline. *)
Definition initial_board_fmt : string :=
  "Initial board:" +:+ String (ascii_of_nat 10) "%s".

Inductive main_result :=
| FailedBeforeSearch (e : exn)
| Searched (initial_cars : State) (r : option run_result).

Definition main (fuel : nat) (rows : list (list string)) : main_result :=
  match read_setup rows with
  | Raise e => FailedBeforeSearch e
  | Ok initial_cars =>
      match get_board initial_cars with
      | Raise e => FailedBeforeSearch e
      | Ok board =>
          Searched initial_cars
            (match run fuel initial_cars with
             | Some (log, exit) =>
                 Some (LogInfo initial_board_fmt (ArgBoard board) :: log, exit)
             | None => None
             end)
      end
  end.

(** * Specification vocabulary *)

(** The cells a car occupies: the cells [get_board] writes for it. *)
Definition footprint (car : Car.t) : list (Z * Z) :=
  match Car.direction car with
  | HORIZONTAL => (fun i => (Car.x car, Car.y car + i)) <$> range (Car.size car)
  | VERTICAL => (fun i => (Car.x car + i, Car.y car)) <$> range (Car.size car)
  | NOT_A_DIRECTION _ => []
  end.

(** A cell of the 6x6 grid. *)
Definition in_grid (p : Z * Z) : Prop :=
  0 <= p.1 < BOARD_SIZE /\ 0 <= p.2 < BOARD_SIZE.

(** A cell that Python's indexing accepts on a 6x6 list of lists. *)
Definition indexable (p : Z * Z) : Prop :=
  - BOARD_SIZE <= p.1 < BOARD_SIZE /\ - BOARD_SIZE <= p.2 < BOARD_SIZE.

Definition valid_direction (car : Car.t) : Prop :=
  Car.direction car = HORIZONTAL \/ Car.direction car = VERTICAL.

(** A car of positive size, lying on the grid along one of the two axes. *)
Definition car_ok (car : Car.t) : Prop :=
  1 <= Car.size car /\ 0 <= Car.x car /\ 0 <= Car.y car /\
  match Car.direction car with
  | HORIZONTAL => Car.x car < BOARD_SIZE /\ Car.y car + Car.size car <= BOARD_SIZE
  | VERTICAL => Car.x car + Car.size car <= BOARD_SIZE /\ Car.y car < BOARD_SIZE
  | NOT_A_DIRECTION _ => False
  end.

Definition footprints_in_grid (s : State) : Prop :=
  forall car, car ∈ s -> forall p, p ∈ footprint car -> in_grid p.

Definition footprints_disjoint (s : State) : Prop :=
  forall (i j : nat) ci cj, i <> j -> s !! i = Some ci -> s !! j = Some cj ->
    forall p, p ∈ footprint ci -> p ∉ footprint cj.

Definition no_blank_name (s : State) : Prop :=
  forall car, car ∈ s -> Car.name car <> EMPTY_CELL.

(** No car of the state covers the cell. *)
Definition free (s : State) (p : Z * Z) : Prop :=
  forall car, car ∈ s -> p ∉ footprint car.

(** The label written last on a cell, over a previous label [acc]. *)
Definition label_from (acc : string) (s : State) (p : Z * Z) : string :=
  foldl (fun acc car => if decide (p ∈ footprint car) then Car.name car else acc)
        acc s.

Definition label (s : State) (p : Z * Z) : string := label_from EMPTY_CELL s p.

(** What the attributes a move never changes. *)
Definition shape (car : Car.t) : string * Z * Direction :=
  (Car.name car, Car.size car, Car.direction car).

(** One move of the generator. *)
Definition step (s s' : State) : Prop := s' ∈ (possible_moves s).1.

(** Reached from [init] in exactly [n] moves. *)
Inductive reach_in (init : State) : nat -> State -> Prop :=
| reach_O : reach_in init O init
| reach_S n s s' : reach_in init n s -> step s s' -> reach_in init (S n) s'.

Definition reachable (init s : State) : Prop := exists n, reach_in init n s.

Definition is_goal (s : State) : Prop := ENDPOINT ∈ s.

(** [n] is the least number of moves after which a goal state is reached. *)
Definition min_steps (init : State) (n : nat) : Prop :=
  (exists g, reach_in init n g /\ is_goal g) /\
  forall m g, reach_in init m g -> is_goal g -> (n <= m)%nat.

(** A 6x6 list of lists. *)
Definition board_ok (b : Board) : Prop :=
  length b = Z.to_nat BOARD_SIZE /\
  Forall (fun row => length row = Z.to_nat BOARD_SIZE) b.

(** The content of a grid cell. *)
Definition rd (b : Board) (p : Z * Z) : string :=
  default EMPTY_CELL (b !! Z.to_nat p.1 ≫= fun row => row !! Z.to_nat p.2).

(** Writing one label on a list of cells, in order. *)
Definition write_cells (b : Board) (cells : list (Z * Z)) (v : string) : res Board :=
  foldM (fun b p => board_set b p.1 p.2 v) b cells.

(** The four cars the generator builds from a car. *)
Definition move_right (car : Car.t) : Car.t :=
  Car.mk (Car.name car) (Car.x car) (Car.y car + 1) (Car.size car) (Car.direction car).
Definition move_left (car : Car.t) : Car.t :=
  Car.mk (Car.name car) (Car.x car) (Car.y car - 1) (Car.size car) (Car.direction car).
Definition move_down (car : Car.t) : Car.t :=
  Car.mk (Car.name car) (Car.x car + 1) (Car.y car) (Car.size car) (Car.direction car).
Definition move_up (car : Car.t) : Car.t :=
  Car.mk (Car.name car) (Car.x car - 1) (Car.y car) (Car.size car) (Car.direction car).

(** [car'] is [car] slid by one cell on the board [b]: right or left for a
    horizontal car, down or up for a vertical one, into a cell of the grid
    that holds the empty marker. *)
Definition slides (b : Board) (car car' : Car.t) : Prop :=
  (Car.direction car = HORIZONTAL /\ Car.y car + Car.size car < BOARD_SIZE /\
   board_get b (Car.x car) (Car.y car + Car.size car) = Ok EMPTY_CELL /\
   car' = move_right car) \/
  (Car.direction car = HORIZONTAL /\ Car.y car > 0 /\
   board_get b (Car.x car) (Car.y car - 1) = Ok EMPTY_CELL /\
   car' = move_left car) \/
  (Car.direction car = VERTICAL /\ Car.x car + Car.size car < BOARD_SIZE /\
   board_get b (Car.x car + Car.size car) (Car.y car) = Ok EMPTY_CELL /\
   car' = move_down car) \/
  (Car.direction car = VERTICAL /\ Car.x car > 0 /\
   board_get b (Car.x car - 1) (Car.y car) = Ok EMPTY_CELL /\
   car' = move_up car).

(** [car'] is [car] slid by one cell in the state [s]: right or left for
    a horizontal car, down or up for a vertical one, within the grid and
    into a cell that no car of [s] covers. *)
Definition legal_slide (s : State) (car car' : Car.t) : Prop :=
  (Car.direction car = HORIZONTAL /\ Car.y car + Car.size car < BOARD_SIZE /\
   free s (Car.x car, Car.y car + Car.size car) /\
   car' = move_right car) \/
  (Car.direction car = HORIZONTAL /\ Car.y car > 0 /\
   free s (Car.x car, Car.y car - 1) /\
   car' = move_left car) \/
  (Car.direction car = VERTICAL /\ Car.x car + Car.size car < BOARD_SIZE /\
   free s (Car.x car + Car.size car, Car.y car) /\
   car' = move_down car) \/
  (Car.direction car = VERTICAL /\ Car.x car > 0 /\
   free s (Car.x car - 1, Car.y car) /\
   car' = move_up car).

(** [h] is the history with which the search reaches [v]: the states from
    [init] up to the one before [v], each a move from the one before. *)
Inductive path_to (init : State) : list State -> State -> Prop :=
| path_O : path_to init [] init
| path_S h u v : path_to init h u -> step u v -> path_to init (h ++ [u]) v.

(** What [run] does on a configuration it can search to the end: either
    it stops at a goal state with a history of least length, logs the moves
    and the boards and returns, or no goal state can be reached and it
    returns having logged nothing. *)
Definition search_post (init : State) (r : run_result) : Prop :=
  (exists h g boards,
      path_to init h g /\ is_goal g /\ min_steps init (length h) /\
      mapM get_board (h ++ [g]) = Ok boards /\
      r = (print_moves (h ++ [g]) ++ [LogDebug boards], Ok tt)) \/
  ((forall s, reachable init s -> ~ is_goal s) /\ r = ([], Ok tt)).

(** The loop of [run] with the queue read as a first-in first-out list,
    its head being the right end of the deque. *)
Fixpoint bfs (fuel : nat) (boards_seen : gset State)
    (fq : list (State * list State)) : option run_result :=
  match fuel with
  | O => None
  | S fuel' =>
      match fq with
      | [] => Some ([], Ok tt)
      | (board, history) :: fq' =>
          if decide (board ∈ boards_seen) then bfs fuel' boards_seen fq'
          else
            let history' := history ++ [board] in
            if decide (ENDPOINT ∈ board) then Some (solution_found history')
            else
              match possible_moves board with
              | (moves, None) =>
                  bfs fuel' ({[board]} ∪ boards_seen)
                      (fq' ++ ((fun move => (move, history')) <$> moves))
              | (_, Some e) => Some ([], Raise e)
              end
      end
  end.

(** Queue entries sorted by the length of their history, which is [L] or
    [S L]. *)
Fixpoint levels (L : nat) (fq : list (State * list State)) : Prop :=
  match fq with
  | [] => True
  | (_, h) :: r =>
      (length h = L /\ levels L r) \/
      (length h = S L /\ Forall (fun e => length e.2 = S L) r)
  end.

(** The invariant of the search loop, at level [L]: the histories in the
    queue are paths from [init], sorted by length [L] then [S L]; no seen
    state is a goal; every state reached in fewer than [L] moves is seen,
    every state reached in [L] moves is seen or queued at level [L], and
    every move from a seen state leads to a seen or queued state. *)
Record search_inv (init : State) (L : nat) (seen : gset State)
    (fq : list (State * list State)) : Prop := {
  inv_paths : forall v h, (v, h) ∈ fq -> path_to init h v;
  inv_levels : levels L fq;
  inv_nogoal : forall u, u ∈ seen -> ~ is_goal u;
  inv_below : forall m w, reach_in init m w -> (m < L)%nat -> w ∈ seen;
  inv_level : forall w, reach_in init L w ->
                w ∈ seen \/ exists h, (w, h) ∈ fq /\ length h = L;
  inv_closed : forall u w, u ∈ seen -> step u w ->
                w ∈ seen \/ exists h, (w, h) ∈ fq
}.

(** A bound on the iterations left, for states within the finite set [U]
    that have at most [K] moves each. *)
Definition search_measure (U : gset State) (K : nat) (seen : gset State)
    (fq : list (State * list State)) : nat :=
  (length fq + size (U ∖ seen) * K)%nat.

#[global] Instance valid_direction_dec (car : Car.t) : Decision (valid_direction car).
Proof. unfold valid_direction. apply _. Defined.

#[global] Instance indexable_dec (p : Z * Z) : Decision (indexable p).
Proof. unfold indexable. apply _. Defined.

(** All the states with the cars of [cars], each car anywhere on the grid. *)
Definition positions : list (Z * Z) :=
  r ← range BOARD_SIZE; c ← range BOARD_SIZE; [(r, c)].

Fixpoint placements (cars : State) : list State :=
  match cars with
  | [] => [[]]
  | car :: cars' =>
      p ← positions; rest ← placements cars';
      [Car.mk (Car.name car) p.1 p.2 (Car.size car) (Car.direction car) :: rest]
  end.

(** The states the search of [init] stays in: the cars of [init], in the
    same order, each one placed on the grid. *)
Definition in_universe (init s : State) : Prop :=
  shape <$> s = shape <$> init /\ Forall car_ok s.

(** The step count of the first record logged by [print_moves]. *)
Definition reported_steps (r : run_result) : option Z :=
  match r.1 with
  | LogInfo fmt (ArgInt n) :: _ =>
      if decide (fmt = "Total number of steps: %d") then Some n else None
  | _ => None
  end.

(** [s'] lists as many cars as [s], and the car at each index keeps its
    name, size and direction. *)
Definition same_layout (s s' : State) : Prop :=
  length s' = length s /\
  forall (i : nat) car car', s !! i = Some car -> s' !! i = Some car' ->
    Car.name car' = Car.name car /\ Car.size car' = Car.size car /\
    Car.direction car' = Car.direction car.

(** The direction of a logged step. *)
Inductive heading := Up | Down | Leftward | Rightward.

Definition heading_fmt (d : heading) : string :=
  match d with
  | Up => "%s-Up"
  | Down => "%s-Down"
  | Leftward => "%s-Left"
  | Rightward => "%s-Right"
  end.

(** [car2] is [car1] with its row or its column changed, the other kept. *)
Definition moved (car1 car2 : Car.t) (d : heading) : Prop :=
  match d with
  | Up => Car.x car1 > Car.x car2 /\ Car.y car1 = Car.y car2
  | Down => Car.x car1 < Car.x car2 /\ Car.y car1 = Car.y car2
  | Leftward => Car.y car1 > Car.y car2 /\ Car.x car1 = Car.x car2
  | Rightward => Car.y car1 < Car.y car2 /\ Car.x car1 = Car.x car2
  end.

(** [s2] is [s1] with exactly one car, named [n], moved in direction [d]. *)
Definition single_move (s1 s2 : State) (n : string) (d : heading) : Prop :=
  exists (i : nat) car1 car2,
    s1 !! i = Some car1 /\ s2 = <[i := car2]> s1 /\
    Car.name car1 = n /\ moved car1 car2 d.

(** The steps of a history: one per consecutive pair of states. *)
Inductive described : list State -> list (string * heading) -> Prop :=
| described_nil : described [] []
| described_one s : described [s] []
| described_cons s1 s2 rest n d steps :
    single_move s1 s2 n d -> described (s2 :: rest) steps ->
    described (s1 :: s2 :: rest) ((n, d) :: steps).

Definition step_record (nd : string * heading) : log_record :=
  LogInfo (heading_fmt nd.2) (ArgStr nd.1).

(** The steps logged by [print_moves], pair by pair. *)
Fixpoint walk (history : list State) : list log_record :=
  match history with
  | s1 :: (s2 :: _) as rest => pair_steps s1 s2 ++ walk rest
  | _ => []
  end.

(** ** Example configurations *)

(** The target two cells from the exit, a vertical car across its row. *)
Definition blocked_once : State :=
  [Car.mk "r" 2 2 2 HORIZONTAL; Car.mk "b" 1 4 2 VERTICAL].

(** A board without the target car. *)
Definition no_target : State := [Car.mk "a" 0 0 2 HORIZONTAL].

(** The target already at the exit. *)
Definition already_solved : State := [ENDPOINT].

(** A car whose row index is past the last row. *)
Definition off_board : State := [Car.mk "a" 6 0 2 HORIZONTAL].

(** A car named like the empty cell, next to another car. *)
Definition blank_named : State :=
  [Car.mk " " 0 0 2 HORIZONTAL; Car.mk "b" 0 2 2 HORIZONTAL].

(** The same after the second car moved left, onto the first. *)
Definition blank_overrun : State :=
  [Car.mk " " 0 0 2 HORIZONTAL; Car.mk "b" 0 1 2 HORIZONTAL].

(** Two cars on the same cells. *)
Definition overlapping : State :=
  [Car.mk "a" 0 0 2 HORIZONTAL; Car.mk "b" 0 1 2 HORIZONTAL].

(** The two cars of [blocked_once] listed the other way round. *)
Definition blocked_once_swapped : State :=
  [Car.mk "b" 1 4 2 VERTICAL; Car.mk "r" 2 2 2 HORIZONTAL].

(** A history whose one car changes row and column at once. *)
Definition diagonal_history : list State :=
  [[Car.mk "a" 1 1 2 HORIZONTAL]; [Car.mk "a" 0 0 2 HORIZONTAL]].

(** Rows of a file: two cars of the same name on overlapping cells. *)
Definition rows_overlapping : list (list string) :=
  [["a"; "0"; "0"; "2"; "H"]; ["a"; "0"; "1"; "2"; "H"]].

(** Rows of a file: a car at row -1 (which Python reads as the last row). *)
Definition rows_negative : list (list string) :=
  [["a"; "-1"; "0"; "2"; "H"]].

(** ** Vocabulary of the further properties *)

(** Where Python's indexing puts a cell it accepts: a negative row or
    column counts from the end of the grid. *)
Definition wrap (p : Z * Z) : Z * Z := (p.1 mod BOARD_SIZE, p.2 mod BOARD_SIZE).

(** The grid cells [get_board] writes for a car. *)
Definition drawn (car : Car.t) : list (Z * Z) := wrap <$> footprint car.

(** The label written last on a grid cell, by drawn cells. *)
Definition drawn_label_from (acc : string) (s : State) (p : Z * Z) : string :=
  foldl (fun acc car => if decide (p ∈ drawn car) then Car.name car else acc)
        acc s.

(** What no move changes in a car: its name, size and direction, and its
    row if it is horizontal, its column if it is vertical. *)
Definition track (car : Car.t) : string * Z * Direction * Z :=
  (Car.name car, Car.size car, Car.direction car,
   match Car.direction car with
   | HORIZONTAL => Car.x car
   | VERTICAL => Car.y car
   | NOT_A_DIRECTION _ => 0
   end).

(** A car at row -1. *)
Definition negative_row : State := [Car.mk "a" (-1) 0 2 HORIZONTAL].

Definition negative_row_board : Board :=
  Eval vm_compute in
    match get_board negative_row with
    | Ok b => b
    | Raise _ => []
    end.

(** The positions a car can be moved to along its axis from position [c]:
    the generator moves it forward only while [c + size < 6] and back
    only while [c > 0]. *)
Definition travel (c size : Z) : list Z :=
  (fun k => Z.min c 0 + k) <$> range (Z.max c (BOARD_SIZE - size) - Z.min c 0 + 1).

Definition car_travels (car : Car.t) : list Car.t :=
  match Car.direction car with
  | HORIZONTAL =>
      (fun y => Car.mk (Car.name car) (Car.x car) y (Car.size car) (Car.direction car))
        <$> travel (Car.y car) (Car.size car)
  | VERTICAL =>
      (fun x => Car.mk (Car.name car) x (Car.y car) (Car.size car) (Car.direction car))
        <$> travel (Car.x car) (Car.size car)
  | NOT_A_DIRECTION _ => [car]
  end.

(** All the states with each car of [cars] somewhere along its travel. *)
Fixpoint travels (cars : State) : list State :=
  match cars with
  | [] => [[]]
  | car :: cars' => c ← car_travels car; rest ← travels cars'; [c :: rest]
  end.

(** Rows of a file: a good row, a row with a wrong direction letter, and a
    row that is too short. *)
Definition rows_good : list (list string) := [["a"; "0"; "0"; "2"; "H"]].
Definition row_bad_letter : list string := ["b"; "0"; "3"; "2"; "X"].
Definition rows_short : list (list string) := [["c"]].

(** * Lemmas *)

(** ** Python indexing *)

Section Indexing.
Context {A : Type}.
Implicit Types (l : list A) (i : Z) (k : nat).

Lemma py_index_lt l i k : py_index l i = Ok k -> (k < length l)%nat.
Proof.
  unfold py_index. repeat case_decide; intros [= <-]; lia.
Qed.

Lemma py_index_nonneg l i :
  0 <= i < Z.of_nat (length l) -> py_index l i = Ok (Z.to_nat i).
Proof. intros H. unfold py_index. by rewrite decide_True. Qed.

Lemma py_index_Ok l i :
  (exists k, py_index l i = Ok k) <->
  - Z.of_nat (length l) <= i < Z.of_nat (length l).
Proof.
  unfold py_index. repeat case_decide; split; intros H'; try lia; eauto.
  by destruct H' as [k [=]].
Qed.

Lemma py_index_Raise l i e : py_index l i = Raise e -> e = IndexError.
Proof. unfold py_index. repeat case_decide; congruence. Qed.

Lemma py_getitem_nonneg l i a :
  0 <= i -> l !! Z.to_nat i = Some a -> py_getitem l i = Ok a.
Proof.
  intros Hi Hl. unfold py_getitem.
  rewrite py_index_nonneg; [simpl; by rewrite Hl|].
  apply lookup_lt_Some in Hl. lia.
Qed.
End Indexing.

Lemma elem_of_range (n i : Z) : i ∈ range n <-> 0 <= i < n.
Proof.
  unfold range. rewrite list_elem_of_fmap. split.
  - intros [k [-> Hk]]. apply elem_of_seq in Hk. lia.
  - intros H. exists (Z.to_nat i). split; [lia|]. apply elem_of_seq. lia.
Qed.

Lemma elem_of_footprint (car : Car.t) (p : Z * Z) :
  p ∈ footprint car <->
  match Car.direction car with
  | HORIZONTAL => p.1 = Car.x car /\ Car.y car <= p.2 < Car.y car + Car.size car
  | VERTICAL => p.2 = Car.y car /\ Car.x car <= p.1 < Car.x car + Car.size car
  | NOT_A_DIRECTION _ => False
  end.
Proof.
  unfold footprint. destruct p as [r c]. destruct (Car.direction car); simpl.
  - rewrite list_elem_of_fmap. split.
    + intros [i [[= -> ->] Hi]]. apply elem_of_range in Hi. lia.
    + intros [-> H]. exists (c - Car.y car). split; [f_equal; lia|].
      apply elem_of_range. lia.
  - rewrite list_elem_of_fmap. split.
    + intros [i [[= -> ->] Hi]]. apply elem_of_range in Hi. lia.
    + intros [-> H]. exists (r - Car.x car). split; [f_equal; lia|].
      apply elem_of_range. lia.
  - by rewrite elem_of_nil.
Qed.

(** ** The board *)

Lemma foldM_fmap {A B C} (f : B -> A -> res B) (g : C -> A) (b : B) (l : list C) :
  foldM f b (g <$> l) = foldM (fun b c => f b (g c)) b l.
Proof.
  revert b. induction l as [|c l IH]; intros b; simpl; [done|].
  destruct (f b (g c)); simpl; [apply IH | done].
Qed.

Lemma place_car_write (b : Board) (car : Car.t) :
  valid_direction car ->
  place_car b car = write_cells b (footprint car) (Car.name car).
Proof.
  unfold valid_direction, place_car, write_cells, footprint.
  intros [-> | ->]; by rewrite foldM_fmap.
Qed.

Lemma empty_board_ok : board_ok empty_board.
Proof.
  split; [done|]. unfold empty_board. apply Forall_replicate. done.
Qed.

Lemma board_ok_row (b : Board) (k : nat) :
  board_ok b -> (k < 6)%nat -> exists row, b !! k = Some row /\ length row = 6%nat.
Proof.
  intros [Hlen Hrows] Hk.
  destruct (lookup_lt_is_Some_2 b k) as [row Hrow].
  { rewrite Hlen. unfold BOARD_SIZE. lia. }
  exists row. split; [done|].
  by apply (Forall_lookup_1 _ _ _ _ Hrows Hrow).
Qed.

Lemma board_set_indexable (b : Board) (r c : Z) (v : string) :
  board_ok b -> indexable (r, c) ->
  exists b', board_set b r c v = Ok b' /\ board_ok b'.
Proof.
  intros Hb [Hr Hc]. simpl in *. unfold BOARD_SIZE in *.
  pose proof Hb as [Hlen Hrows].
  destruct (proj2 (py_index_Ok b r)) as [k Hk].
  { rewrite Hlen. unfold BOARD_SIZE. lia. }
  pose proof (py_index_lt _ _ _ Hk) as Hklt.
  destruct (board_ok_row b k Hb) as [row [Hrow Hrl]].
  { rewrite Hlen in Hklt. unfold BOARD_SIZE in Hklt. lia. }
  destruct (proj2 (py_index_Ok row c)) as [k' Hk'].
  { rewrite Hrl. lia. }
  unfold board_set, py_setitem. rewrite Hk. simpl. rewrite Hrow, Hk'. simpl.
  eexists. split; [done|]. split.
  - by rewrite length_insert.
  - apply Forall_insert; [done|]. by rewrite length_insert.
Qed.

Lemma board_set_not_indexable (b : Board) (r c : Z) (v : string) :
  board_ok b -> ~ indexable (r, c) -> board_set b r c v = Raise IndexError.
Proof.
  intros Hb Hn. pose proof Hb as [Hlen Hrows].
  unfold board_set, py_setitem.
  destruct (py_index b r) as [k|e] eqn:Hk; simpl.
  - pose proof (py_index_lt _ _ _ Hk) as Hklt.
    destruct (board_ok_row b k Hb) as [row [Hrow Hrl]].
    { rewrite Hlen in Hklt. unfold BOARD_SIZE in Hklt. lia. }
    rewrite Hrow.
    destruct (py_index row c) as [k'|e] eqn:Hk'; simpl.
    + exfalso. apply Hn. split; simpl.
      * assert (H : exists k, py_index b r = Ok k) by eauto.
        apply py_index_Ok in H. rewrite Hlen in H. unfold BOARD_SIZE in *. lia.
      * assert (H : exists k, py_index row c = Ok k) by eauto.
        apply py_index_Ok in H. rewrite Hrl in H. unfold BOARD_SIZE. lia.
    + by rewrite (py_index_Raise _ _ _ Hk').
  - by rewrite (py_index_Raise _ _ _ Hk).
Qed.

Lemma board_get_in_grid (b : Board) (p : Z * Z) :
  board_ok b -> in_grid p -> board_get b p.1 p.2 = Ok (rd b p).
Proof.
  intros Hb [Hr Hc]. unfold BOARD_SIZE in *.
  destruct (board_ok_row b (Z.to_nat p.1) Hb) as [row [Hrow Hrl]]; [lia|].
  destruct (lookup_lt_is_Some_2 row (Z.to_nat p.2)) as [v Hv]; [lia|].
  unfold board_get, rd.
  rewrite (py_getitem_nonneg b p.1 row) by (lia || done). simpl.
  rewrite (py_getitem_nonneg row p.2 v) by (lia || done).
  rewrite Hrow. simpl. by rewrite Hv.
Qed.

Lemma board_set_in_grid (b b' : Board) (q : Z * Z) (v : string) :
  board_ok b -> in_grid q -> board_set b q.1 q.2 v = Ok b' ->
  forall p, in_grid p -> rd b' p = if decide (p = q) then v else rd b p.
Proof.
  intros Hb [Hr Hc] Hset p [Hpr Hpc]. unfold BOARD_SIZE in *.
  pose proof Hb as [Hlen Hrows].
  destruct (board_ok_row b (Z.to_nat q.1) Hb) as [row [Hrow Hrl]]; [lia|].
  unfold board_set, py_setitem in Hset.
  rewrite py_index_nonneg in Hset by (rewrite Hlen; unfold BOARD_SIZE; lia).
  simpl in Hset. rewrite Hrow in Hset.
  rewrite py_index_nonneg in Hset by (rewrite Hrl; lia).
  simpl in Hset. injection Hset as <-.
  unfold rd. destruct p as [pr pc], q as [qr qc]. simpl in *.
  destruct (decide (pr = qr)) as [->|Hne].
  - rewrite list_lookup_insert_eq by (rewrite Hlen; unfold BOARD_SIZE; lia).
    simpl. rewrite Hrow. simpl.
    destruct (decide (pc = qc)) as [->|Hne].
    + rewrite list_lookup_insert_eq by lia. by rewrite decide_True.
    + rewrite list_lookup_insert_ne by lia.
      rewrite decide_False by congruence. done.
  - rewrite list_lookup_insert_ne by lia.
    rewrite decide_False by congruence. done.
Qed.

Lemma write_cells_indexable (b : Board) (cells : list (Z * Z)) (v : string) :
  board_ok b -> Forall indexable cells ->
  exists b', write_cells b cells v = Ok b' /\ board_ok b'.
Proof.
  intros Hb Hall. revert b Hb.
  induction Hall as [|q cells Hq Hall IH]; intros b Hb; simpl.
  - by exists b.
  - destruct q as [qr qc].
    destruct (board_set_indexable b qr qc v Hb Hq) as [b1 [H1 Hb1]].
    unfold write_cells. simpl. rewrite H1. simpl. by apply IH.
Qed.

Lemma write_cells_not_indexable (b : Board) (cells : list (Z * Z)) (v : string) :
  board_ok b -> ~ Forall indexable cells ->
  write_cells b cells v = Raise IndexError.
Proof.
  revert b. induction cells as [|q cells IH]; intros b Hb Hn.
  - by destruct Hn.
  - unfold write_cells. simpl.
    assert (Hdec : indexable q \/ ~ indexable q).
    { unfold indexable. lia. }
    destruct Hdec as [Hq|Hq].
    + destruct q as [qr qc].
      destruct (board_set_indexable b qr qc v Hb Hq) as [b1 [H1 Hb1]].
      simpl. rewrite H1. simpl. apply IH; [done|].
      intros Hall. apply Hn. by constructor.
    + destruct q as [qr qc]. simpl.
      by rewrite (board_set_not_indexable b qr qc v Hb Hq).
Qed.

Lemma in_grid_indexable (p : Z * Z) : in_grid p -> indexable p.
Proof. unfold in_grid, indexable, BOARD_SIZE. lia. Qed.

Lemma write_cells_in_grid (b b' : Board) (cells : list (Z * Z)) (v : string) :
  board_ok b -> Forall in_grid cells -> write_cells b cells v = Ok b' ->
  forall p, in_grid p -> rd b' p = if decide (p ∈ cells) then v else rd b p.
Proof.
  intros Hb Hall. revert b Hb.
  induction Hall as [|q cells Hq Hall IH]; intros b Hb Hw p Hp.
  - unfold write_cells in Hw. simpl in Hw. injection Hw as <-.
    by rewrite decide_False by apply not_elem_of_nil.
  - unfold write_cells in Hw. simpl in Hw.
    destruct (board_set_indexable b q.1 q.2 v Hb) as [b1 [H1 Hb1]].
    { destruct q. by apply in_grid_indexable. }
    rewrite H1 in Hw. simpl in Hw.
    rewrite (IH b1 Hb1 Hw p Hp).
    rewrite (board_set_in_grid b b1 q v Hb Hq H1 p Hp).
    destruct (decide (p ∈ cells)) as [Hin|Hin].
    + rewrite decide_True; [done|]. apply elem_of_cons. by right.
    + destruct (decide (p = q)) as [->|Hne].
      * rewrite decide_True; [done|]. apply elem_of_cons. by left.
      * rewrite decide_False; [done|].
        intros [?|?]%elem_of_cons; done.
Qed.

(** ** Labels: what [get_board] leaves on a cell *)

Lemma label_from_cons (acc : string) (car : Car.t) (s : State) (p : Z * Z) :
  label_from acc (car :: s) p =
  label_from (if decide (p ∈ footprint car) then Car.name car else acc) s p.
Proof. reflexivity. Qed.

Lemma label_from_free (acc : string) (s : State) (p : Z * Z) :
  free s p -> label_from acc s p = acc.
Proof.
  revert acc. induction s as [|car s IH]; intros acc Hfree; [done|].
  rewrite label_from_cons, decide_False.
  - apply IH. intros c Hc. apply Hfree. apply elem_of_cons. by right.
  - apply Hfree. apply elem_of_cons. by left.
Qed.

Lemma label_from_last (acc : string) (s : State) (p : Z * Z) (i : nat) (car : Car.t) :
  s !! i = Some car -> p ∈ footprint car ->
  (forall j c', (i < j)%nat -> s !! j = Some c' -> p ∉ footprint c') ->
  label_from acc s p = Car.name car.
Proof.
  revert acc i. induction s as [|c0 s IH]; intros acc i Hi Hp Hlater; [done|].
  rewrite label_from_cons. destruct i as [|i]; simpl in Hi.
  - injection Hi as ->. rewrite decide_True by done.
    apply label_from_free. intros c' Hc'.
    apply list_elem_of_lookup in Hc' as [j Hj].
    apply (Hlater (S j)); [lia | done].
  - apply (IH _ i); [done | done |].
    intros j c' Hij Hj. apply (Hlater (S j)); [lia | done].
Qed.

Lemma label_from_blank (acc : string) (s : State) (p : Z * Z) :
  no_blank_name s -> label_from acc s p = EMPTY_CELL -> free s p.
Proof.
  revert acc. induction s as [|c0 s IH]; intros acc Hnb Hl.
  - intros c Hc. by apply elem_of_nil in Hc.
  - rewrite label_from_cons in Hl.
    assert (Hnb' : no_blank_name s).
    { intros c Hc. apply Hnb. apply elem_of_cons. by right. }
    pose proof (IH _ Hnb' Hl) as Hfree.
    rewrite (label_from_free _ _ _ Hfree) in Hl.
    intros c [->|Hc]%elem_of_cons; [|by apply Hfree].
    intros Hin. rewrite decide_True in Hl by done.
    apply (Hnb c0); [apply elem_of_cons; by left | done].
Qed.

(** ** get_board *)

Lemma footprints_in_grid_cons (car : Car.t) (s : State) :
  footprints_in_grid (car :: s) ->
  Forall in_grid (footprint car) /\ footprints_in_grid s.
Proof.
  intros H. split.
  - apply Forall_forall. intros p Hp.
    apply (H car); [apply elem_of_cons; by left | done].
  - intros c Hc. apply H. apply elem_of_cons. by right.
Qed.

Lemma place_cars_in_grid (b : Board) (cars : State) :
  board_ok b -> (forall car, car ∈ cars -> valid_direction car) ->
  footprints_in_grid cars ->
  exists b', foldM place_car b cars = Ok b' /\ board_ok b' /\
    forall p, in_grid p -> rd b' p = label_from (rd b p) cars p.
Proof.
  revert b. induction cars as [|car cars IH]; intros b Hb Hdir Hgrid.
  - exists b. split; [done|]. split; done.
  - destruct (footprints_in_grid_cons _ _ Hgrid) as [Hcar Hrest].
    assert (Hv : valid_direction car).
    { apply Hdir. apply elem_of_cons. by left. }
    destruct (write_cells_indexable b (footprint car) (Car.name car) Hb)
      as [b1 [H1 Hb1]].
    { eapply Forall_impl; [exact Hcar | apply in_grid_indexable]. }
    destruct (IH b1 Hb1) as [b' [H' [Hb' Hrd]]]; [|done|].
    { intros c Hc. apply Hdir. apply elem_of_cons. by right. }
    exists b'. simpl. rewrite (place_car_write b car Hv), H1. simpl.
    split; [done|]. split; [done|].
    intros p Hp. rewrite (Hrd p Hp).
    by rewrite (write_cells_in_grid b b1 _ _ Hb Hcar H1 p Hp).
Qed.

Lemma place_cars_valid (b b' : Board) (cars : State) :
  foldM place_car b cars = Ok b' -> forall car, car ∈ cars -> valid_direction car.
Proof.
  revert b. induction cars as [|car cars IH]; intros b H c Hc.
  - by apply elem_of_nil in Hc.
  - simpl in H. destruct (place_car b car) as [b1|e] eqn:H1; [|done].
    simpl in H. apply elem_of_cons in Hc as [->|Hc]; [|by eapply IH].
    unfold place_car in H1. unfold valid_direction.
    destruct (Car.direction car); [by left | by right | done].
Qed.

Lemma place_cars_Ok_iff (b : Board) (cars : State) :
  board_ok b ->
  (exists b', foldM place_car b cars = Ok b') <->
  Forall (fun car => valid_direction car /\ Forall indexable (footprint car)) cars.
Proof.
  revert b. induction cars as [|car cars IH]; intros b Hb.
  - split; [constructor | by exists b].
  - simpl. split.
    + intros [b' H].
      destruct (place_car b car) as [b1|e] eqn:H1; [|done]. simpl in H.
      assert (Hv : valid_direction car).
      { unfold place_car in H1. unfold valid_direction.
        destruct (Car.direction car); [by left | by right | done]. }
      rewrite (place_car_write b car Hv) in H1.
      assert (Hall : Forall indexable (footprint car)).
      { destruct (Forall_dec indexable (footprint car)) as [?|Hn]; [done|].
        by rewrite (write_cells_not_indexable b _ _ Hb Hn) in H1. }
      destruct (write_cells_indexable b _ (Car.name car) Hb Hall) as [b2 [H2 Hb2]].
      rewrite H1 in H2. injection H2 as <-.
      constructor; [done|]. apply (IH b1 Hb2). by exists b'.
    + intros Hall. apply Forall_cons in Hall as [[Hv Hidx] Hall].
      destruct (write_cells_indexable b _ (Car.name car) Hb Hidx) as [b1 [H1 Hb1]].
      rewrite (place_car_write b car Hv), H1. simpl. by apply (IH b1 Hb1).
Qed.

Lemma place_cars_Raise_valid (b : Board) (cars : State) (e : exn) :
  board_ok b -> (forall car, car ∈ cars -> valid_direction car) ->
  foldM place_car b cars = Raise e -> e = IndexError.
Proof.
  revert b. induction cars as [|car cars IH]; intros b Hb Hdir H; [done|].
  simpl in H.
  assert (Hv : valid_direction car).
  { apply Hdir. apply elem_of_cons. by left. }
  rewrite (place_car_write b car Hv) in H.
  destruct (Forall_dec indexable (footprint car)) as [Hall|Hn].
  - destruct (write_cells_indexable b _ (Car.name car) Hb Hall) as [b1 [H1 Hb1]].
    rewrite H1 in H. simpl in H. apply (IH b1 Hb1); [|done].
    intros c Hc. apply Hdir. apply elem_of_cons. by right.
  - rewrite (write_cells_not_indexable b _ _ Hb Hn) in H. simpl in H. congruence.
Qed.

Lemma place_cars_bad_direction (b : Board) (cars : State) :
  board_ok b -> footprints_in_grid cars ->
  (exists car, car ∈ cars /\ ~ valid_direction car) ->
  foldM place_car b cars = Raise ValueError.
Proof.
  revert b. induction cars as [|car cars IH]; intros b Hb Hgrid [c [Hc Hbad]].
  - by apply elem_of_nil in Hc.
  - destruct (footprints_in_grid_cons _ _ Hgrid) as [Hcar Hrest]. simpl.
    destruct (Car.direction car) as [| |v] eqn:Hd.
    3: { unfold place_car. by rewrite Hd. }
    all: assert (Hv : valid_direction car) by (unfold valid_direction; tauto).
    all: destruct (write_cells_indexable b (footprint car) (Car.name car) Hb)
        as [b1 [H1 Hb1]];
      [eapply Forall_impl; [exact Hcar | apply in_grid_indexable]|].
    all: rewrite (place_car_write b car Hv), H1; simpl.
    all: apply (IH b1 Hb1 Hrest).
    all: apply elem_of_cons in Hc as [->|Hc]; [done | by exists c].
Qed.

Lemma rd_empty_board (p : Z * Z) : rd empty_board p = EMPTY_CELL.
Proof.
  unfold rd, empty_board.
  destruct (replicate _ _ !! Z.to_nat p.1) as [row|] eqn:E; simpl; [|done].
  apply lookup_replicate in E as [-> _].
  destruct (replicate _ _ !! Z.to_nat p.2) as [v|] eqn:E; simpl; [|done].
  by apply lookup_replicate in E as [-> _].
Qed.

Lemma get_board_in_grid (cars : State) :
  (forall car, car ∈ cars -> valid_direction car) -> footprints_in_grid cars ->
  exists b, get_board cars = Ok b /\ board_ok b /\
    forall p, in_grid p -> board_get b p.1 p.2 = Ok (label cars p).
Proof.
  intros Hdir Hgrid.
  destruct (place_cars_in_grid empty_board cars empty_board_ok Hdir Hgrid)
    as [b [H [Hb Hrd]]].
  exists b. split; [done|]. split; [done|].
  intros p Hp. rewrite (board_get_in_grid b p Hb Hp), (Hrd p Hp).
  by rewrite rd_empty_board.
Qed.

(** ** The move generator *)

Lemma is_empty_cell_true (b : Board) (r c : Z) :
  is_empty_cell b r c = Ok true <-> board_get b r c = Ok EMPTY_CELL.
Proof.
  unfold is_empty_cell. destruct (board_get b r c) as [v|e]; simpl; [|done].
  case_bool_decide; split; intros [=]; congruence.
Qed.

Lemma gen_seq_elem {A} (g1 g2 : gen A) (a : A) :
  a ∈ (gen_seq g1 g2).1 -> a ∈ g1.1 \/ a ∈ g2.1.
Proof.
  destruct g1 as [l [e|]]; simpl; [by left|].
  intros [?|?]%elem_of_app; [by left | by right].
Qed.

Lemma gen_seq_None {A} (g1 g2 : gen A) :
  g1.2 = None -> gen_seq g1 g2 = (g1.1 ++ g2.1, g2.2).
Proof. destruct g1 as [l [e|]]; simpl; [done|]. by destruct g2. Qed.

Lemma gen_seq_length {A} (g1 g2 : gen A) :
  (length (gen_seq g1 g2).1 <= length g1.1 + length g2.1)%nat.
Proof.
  destruct g1 as [l [e|]]; simpl; [lia|]. rewrite length_app. lia.
Qed.

Lemma gen_if_yield_elem (c : res bool) (r : res State) (s' : State) :
  s' ∈ (gen_if c (gen_yield r)).1 -> c = Ok true /\ r = Ok s'.
Proof.
  destruct c as [[]|e]; simpl; [|by intros ?%elem_of_nil..].
  destruct r as [a|e]; simpl; [|by intros ?%elem_of_nil].
  intros ->%list_elem_of_singleton. done.
Qed.

Lemma gen_if_yield_length (c : res bool) (r : res State) :
  (length (gen_if c (gen_yield r)).1 <= 1)%nat.
Proof. destruct c as [[]|e]; simpl; [|lia..]. destruct r; simpl; lia. Qed.

Lemma py_and_true (a : bool) (b : res bool) :
  py_and a b = Ok true -> a = true /\ b = Ok true.
Proof. destruct a; simpl; [done | by intros [=]]. Qed.

Lemma update_cars_tuple_Ok (cars s' : State) (i : nat) (car : Car.t) :
  update_cars_tuple cars i car = Ok s' ->
  (i < length cars)%nat /\ s' = <[i := car]> cars.
Proof. unfold update_cars_tuple. case_decide; [by intros [= <-] | done]. Qed.

Lemma car_moves_sound (b : Board) (s s' : State) (i : nat) (car : Car.t) :
  s' ∈ (car_moves b s i car).1 ->
  (i < length s)%nat /\ exists car', slides b car car' /\ s' = <[i := car']> s.
Proof.
  unfold car_moves, slides.
  destruct (Car.direction car) eqn:Hd; [| |by intros ?%elem_of_nil].
  all: intros [H|H]%gen_seq_elem.
  all: apply gen_if_yield_elem in H as [Hc Hu].
  all: apply py_and_true in Hc as [Hc He].
  all: apply bool_decide_eq_true in Hc.
  all: apply is_empty_cell_true in He.
  all: apply update_cars_tuple_Ok in Hu as [Hi ->].
  all: split; [done|]; eexists; split; [|reflexivity].
  all: unfold move_right, move_left, move_down, move_up; rewrite Hd.
  - left. done.
  - right; left. done.
  - right; right; left. done.
  - right; right; right. done.
Qed.

Lemma car_moves_length (b : Board) (s : State) (i : nat) (car : Car.t) :
  (length (car_moves b s i car).1 <= 2)%nat.
Proof.
  unfold car_moves. destruct (Car.direction car); simpl; [| |lia].
  all: etrans; [apply gen_seq_length|].
  all: match goal with
       | |- (length (gen_if ?c1 (gen_yield ?r1)).1 +
             length (gen_if ?c2 (gen_yield ?r2)).1 <= 2)%nat =>
           pose proof (gen_if_yield_length c1 r1);
           pose proof (gen_if_yield_length c2 r2); lia
       end.
Qed.

Lemma moves_from_sound (b : Board) (s s' : State) (i : nat) (rest : list Car.t) :
  s' ∈ (moves_from b s i rest).1 ->
  exists j car, rest !! j = Some car /\ s' ∈ (car_moves b s (i + j) car).1.
Proof.
  revert i. induction rest as [|car rest IH]; intros i; simpl.
  - by intros ?%elem_of_nil.
  - intros [H|H]%gen_seq_elem.
    + exists O, car. split; [done|]. by rewrite Nat.add_0_r.
    + destruct (IH _ H) as [j [c [Hj Hc]]]. exists (S j), c. split; [done|].
      by replace (i + S j)%nat with (S i + j)%nat by lia.
Qed.

Lemma moves_from_length (b : Board) (s : State) (i : nat) (rest : list Car.t) :
  (length (moves_from b s i rest).1 <= 2 * length rest)%nat.
Proof.
  revert i. induction rest as [|car rest IH]; intros i; simpl; [lia|].
  etrans; [apply gen_seq_length|].
  pose proof (car_moves_length b s i car). specialize (IH (S i)). lia.
Qed.

Lemma moves_from_complete (b : Board) (s : State) (i : nat) (rest : list Car.t) :
  (forall j car, rest !! j = Some car -> (car_moves b s (i + j) car).2 = None) ->
  (moves_from b s i rest).2 = None /\
  forall j car s', rest !! j = Some car ->
    s' ∈ (car_moves b s (i + j) car).1 -> s' ∈ (moves_from b s i rest).1.
Proof.
  revert i. induction rest as [|car rest IH]; intros i Hnone; simpl.
  - split; [done|]. intros j c s' Hj. done.
  - assert (H0 : (car_moves b s i car).2 = None).
    { specialize (Hnone O car eq_refl). by rewrite Nat.add_0_r in Hnone. }
    destruct (IH (S i)) as [IH1 IH2].
    { intros j c Hj. specialize (Hnone (S j) c Hj).
      by replace (i + S j)%nat with (S i + j)%nat in Hnone by lia. }
    rewrite (gen_seq_None _ _ H0). simpl. split; [done|].
    intros j c s' Hj Hs'. apply elem_of_app. destruct j as [|j]; simpl in Hj.
    + left. injection Hj as <-. by rewrite Nat.add_0_r in Hs'.
    + right. apply (IH2 j c); [done|].
      by replace (i + S j)%nat with (S i + j)%nat in Hs' by lia.
Qed.

Lemma possible_moves_sound (s s' : State) :
  step s s' ->
  exists b i car car', get_board s = Ok b /\ s !! i = Some car /\
    slides b car car' /\ s' = <[i := car']> s.
Proof.
  unfold step, possible_moves.
  destruct (get_board s) as [b|e]; [|by intros ?%elem_of_nil].
  intros (j & car & Hj & H)%moves_from_sound. simpl in H.
  apply car_moves_sound in H as [_ [car' [Hsl ->]]].
  by exists b, j, car, car'.
Qed.

Lemma possible_moves_length (s : State) :
  (length (possible_moves s).1 <= 2 * length s)%nat.
Proof.
  unfold possible_moves. destruct (get_board s); simpl; [|lia].
  apply moves_from_length.
Qed.

Lemma cond_eval (b : Board) (P : Prop) `{!Decision P} (r c : Z) :
  board_ok b -> (P -> in_grid (r, c)) ->
  exists v, py_and (bool_decide P) (is_empty_cell b r c) = Ok v /\
            (v = true <-> P /\ board_get b r c = Ok EMPTY_CELL).
Proof.
  intros Hb Hgrid. case_bool_decide as HP; simpl.
  - pose proof (board_get_in_grid b (r, c) Hb (Hgrid HP)) as Hget. simpl in Hget.
    unfold is_empty_cell. rewrite Hget. simpl. eexists. split; [done|].
    case_bool_decide as Hv; split; try done.
    + intros _. split; [done|]. by rewrite Hv.
    + intros [_ [=]]. done.
  - exists false. split; [done|]. split; [done | tauto].
Qed.

Lemma car_moves_complete (b : Board) (s : State) (i : nat) (car : Car.t) :
  board_ok b -> car_ok car -> (i < length s)%nat ->
  (car_moves b s i car).2 = None /\
  forall car', slides b car car' -> <[i := car']> s ∈ (car_moves b s i car).1.
Proof.
  intros Hb (Hsz & Hx & Hy & Hdir) Hi.
  unfold car_moves, slides, update_cars_tuple. rewrite !decide_True by done.
  unfold BOARD_SIZE in *.
  destruct (Car.direction car) eqn:Hd; [| |done].
  - destruct (cond_eval b (Car.y car + Car.size car < 6) (Car.x car)
                (Car.y car + Car.size car) Hb) as [v1 [-> H1]].
    { unfold in_grid, BOARD_SIZE. simpl. lia. }
    destruct (cond_eval b (Car.y car > 0) (Car.x car) (Car.y car - 1) Hb)
      as [v2 [-> H2]].
    { unfold in_grid, BOARD_SIZE. simpl. lia. }
    split; [by destruct v1, v2|].
    intros car' [(_ & ? & ? & ->) | [(_ & ? & ? & ->) | [(? & _) | (? & _)]]];
      try done.
    + assert (v1 = true) as -> by (by apply H1). unfold move_right. rewrite Hd.
      destruct v2; simpl; apply elem_of_cons; by left.
    + assert (v2 = true) as -> by (by apply H2). unfold move_left. rewrite Hd.
      destruct v1; simpl; [apply elem_of_cons; right|]; apply elem_of_cons; by left.
  - destruct (cond_eval b (Car.x car + Car.size car < 6) (Car.x car + Car.size car)
                (Car.y car) Hb) as [v1 [-> H1]].
    { unfold in_grid, BOARD_SIZE. simpl. lia. }
    destruct (cond_eval b (Car.x car > 0) (Car.x car - 1) (Car.y car) Hb)
      as [v2 [-> H2]].
    { unfold in_grid, BOARD_SIZE. simpl. lia. }
    split; [by destruct v1, v2|].
    intros car' [(? & _) | [(? & _) | [(_ & ? & ? & ->) | (_ & ? & ? & ->)]]];
      try done.
    + assert (v1 = true) as -> by (by apply H1). unfold move_down. rewrite Hd.
      destruct v2; simpl; apply elem_of_cons; by left.
    + assert (v2 = true) as -> by (by apply H2). unfold move_up. rewrite Hd.
      destruct v1; simpl; [apply elem_of_cons; right|]; apply elem_of_cons; by left.
Qed.

Lemma car_ok_valid (car : Car.t) : car_ok car -> valid_direction car.
Proof.
  unfold car_ok, valid_direction. intros (_ & _ & _ & H).
  destruct (Car.direction car); [by left | by right | done].
Qed.

Lemma car_ok_footprint (car : Car.t) (p : Z * Z) :
  car_ok car -> p ∈ footprint car -> in_grid p.
Proof.
  intros (Hsz & Hx & Hy & Hdir) Hp. apply elem_of_footprint in Hp.
  unfold in_grid, BOARD_SIZE in *. destruct (Car.direction car); lia.
Qed.

Lemma state_ok_in_grid (s : State) : Forall car_ok s -> footprints_in_grid s.
Proof.
  intros Hs car Hcar p Hp. eapply car_ok_footprint; [|done].
  by apply (proj1 (Forall_forall _ _) Hs).
Qed.

Lemma get_board_ok (s : State) :
  Forall car_ok s ->
  exists b, get_board s = Ok b /\ board_ok b /\
    forall p, in_grid p -> board_get b p.1 p.2 = Ok (label s p).
Proof.
  intros Hs. apply get_board_in_grid; [|by apply state_ok_in_grid].
  intros car Hcar. apply car_ok_valid. by apply (proj1 (Forall_forall _ _) Hs).
Qed.

Lemma possible_moves_complete (s : State) :
  Forall car_ok s ->
  exists b, get_board s = Ok b /\ board_ok b /\
    (possible_moves s).2 = None /\
    forall s', step s s' <->
      exists i car car', s !! i = Some car /\ slides b car car' /\ s' = <[i := car']> s.
Proof.
  intros Hs. destruct (get_board_ok s Hs) as [b [Hget [Hb _]]].
  exists b. split; [done|]. split; [done|].
  destruct (moves_from_complete b s 0 s) as [Hnone Hall].
  { intros j car Hj. apply car_moves_complete; [done | |].
    - by apply (Forall_lookup_1 _ _ _ _ Hs Hj).
    - by apply lookup_lt_Some in Hj. }
  unfold step, possible_moves. rewrite Hget. split; [done|].
  intros s'. split.
  - intros H. destruct (possible_moves_sound s s') as (b' & i & c & c' & Hb' & ?).
    { unfold step, possible_moves. by rewrite Hget. }
    rewrite Hget in Hb'. injection Hb' as <-. by exists i, c, c'.
  - intros (i & car & car' & Hi & Hsl & ->). apply (Hall i car); [done|].
    apply car_moves_complete; [done | | | done].
    + by apply (Forall_lookup_1 _ _ _ _ Hs Hi).
    + by apply lookup_lt_Some in Hi.
Qed.

(** ** What a move keeps *)

Lemma slides_shape (b : Board) (car car' : Car.t) :
  slides b car car' -> shape car' = shape car.
Proof.
  intros [(_ & _ & _ & ->) | [(_ & _ & _ & ->) | [(_ & _ & _ & ->) | (_ & _ & _ & ->)]]];
    reflexivity.
Qed.

Lemma step_shape (s s' : State) : step s s' -> shape <$> s' = shape <$> s.
Proof.
  intros (b & i & car & car' & _ & Hi & Hsl & ->)%possible_moves_sound.
  rewrite list_fmap_insert, (slides_shape _ _ _ Hsl).
  apply list_insert_id. by rewrite list_lookup_fmap, Hi.
Qed.

Lemma reach_in_shape (init s : State) (n : nat) :
  reach_in init n s -> shape <$> s = shape <$> init.
Proof.
  induction 1 as [|n s s' _ IH Hstep]; [done|].
  by rewrite (step_shape _ _ Hstep).
Qed.

Lemma slides_car_ok (b : Board) (car car' : Car.t) :
  car_ok car -> slides b car car' -> car_ok car'.
Proof.
  unfold car_ok, BOARD_SIZE.
  intros (Hsz & Hx & Hy & Hdir)
    [(Hd & ? & _ & ->) | [(Hd & ? & _ & ->) | [(Hd & ? & _ & ->) | (Hd & ? & _ & ->)]]];
    simpl; rewrite Hd in Hdir |- *; unfold BOARD_SIZE in *; lia.
Qed.

Lemma step_car_ok (s s' : State) : Forall car_ok s -> step s s' -> Forall car_ok s'.
Proof.
  intros Hs (b & i & car & car' & _ & Hi & Hsl & ->)%possible_moves_sound.
  apply Forall_insert; [done|].
  eapply slides_car_ok; [|done]. by apply (Forall_lookup_1 _ _ _ _ Hs Hi).
Qed.

(** The cells of a slid car are on the grid, and each is either a cell the
    car had or a cell no car covered. *)
Lemma slides_footprint (s : State) (b : Board) (i : nat) (car car' : Car.t) :
  footprints_in_grid s -> no_blank_name s ->
  get_board s = Ok b -> s !! i = Some car -> slides b car car' ->
  forall p, p ∈ footprint car' -> in_grid p /\ (p ∈ footprint car \/ free s p).
Proof.
  intros Hgrid Hnb Hget Hi Hsl p Hp.
  assert (Hin : car ∈ s) by (apply list_elem_of_lookup; eauto).
  destruct (get_board_in_grid s) as (b' & Hget' & Hb & Hlab); [|done|].
  { by apply (place_cars_valid empty_board b). }
  rewrite Hget in Hget'. injection Hget' as <-.
  assert (Hfree : forall q, in_grid q -> board_get b q.1 q.2 = Ok EMPTY_CELL -> free s q).
  { intros q Hq Hget'. rewrite (Hlab q Hq) in Hget'. injection Hget' as Hl.
    by apply (label_from_blank EMPTY_CELL). }
  assert (Hcells : forall q, q ∈ footprint car -> in_grid q) by (by apply Hgrid).
  apply elem_of_footprint in Hp.
  destruct p as [pr pc].
  destruct Hsl as [(Hd & Hlt & He & ->) | [(Hd & Hlt & He & ->) |
                   [(Hd & Hlt & He & ->) | (Hd & Hlt & He & ->)]]];
    simpl in Hp; rewrite Hd in Hp; simpl in Hp; destruct Hp as [-> Hp].
  - pose proof (Hcells (Car.x car, Car.y car)) as H0.
    rewrite elem_of_footprint, Hd in H0. simpl in H0.
    destruct H0 as [H0r H0c]; [lia|]. simpl in *.
    destruct (decide (pc < Car.y car + Car.size car)) as [Hlt'|Hge].
    + assert (Hq : (Car.x car, pc) ∈ footprint car).
      { rewrite elem_of_footprint, Hd. simpl. lia. }
      split; [by apply Hcells | by left].
    + assert (pc = Car.y car + Car.size car) as -> by lia.
      assert (Hq : in_grid (Car.x car, Car.y car + Car.size car)).
      { split; simpl; lia. }
      split; [done|]. right. by apply Hfree.
  - pose proof (Hcells (Car.x car, Car.y car)) as H0.
    rewrite elem_of_footprint, Hd in H0. simpl in H0.
    destruct H0 as [H0r H0c]; [lia|]. simpl in *.
    destruct (decide (Car.y car <= pc)) as [Hle|Hlt'].
    + assert (Hq : (Car.x car, pc) ∈ footprint car).
      { rewrite elem_of_footprint, Hd. simpl. lia. }
      split; [by apply Hcells | by left].
    + assert (pc = Car.y car - 1) as -> by lia.
      assert (Hq : in_grid (Car.x car, Car.y car - 1)).
      { split; simpl; lia. }
      split; [done|]. right. by apply Hfree.
  - pose proof (Hcells (Car.x car, Car.y car)) as H0.
    rewrite elem_of_footprint, Hd in H0. simpl in H0.
    destruct H0 as [H0r H0c]; [lia|]. simpl in *.
    destruct (decide (pr < Car.x car + Car.size car)) as [Hlt'|Hge].
    + assert (Hq : (pr, Car.y car) ∈ footprint car).
      { rewrite elem_of_footprint, Hd. simpl. lia. }
      split; [by apply Hcells | by left].
    + assert (pr = Car.x car + Car.size car) as -> by lia.
      assert (Hq : in_grid (Car.x car + Car.size car, Car.y car)).
      { split; simpl; lia. }
      split; [done|]. right. by apply Hfree.
  - pose proof (Hcells (Car.x car, Car.y car)) as H0.
    rewrite elem_of_footprint, Hd in H0. simpl in H0.
    destruct H0 as [H0r H0c]; [lia|]. simpl in *.
    destruct (decide (Car.x car <= pr)) as [Hle|Hlt'].
    + assert (Hq : (pr, Car.y car) ∈ footprint car).
      { rewrite elem_of_footprint, Hd. simpl. lia. }
      split; [by apply Hcells | by left].
    + assert (pr = Car.x car - 1) as -> by lia.
      assert (Hq : in_grid (Car.x car - 1, Car.y car)).
      { split; simpl; lia. }
      split; [done|]. right. by apply Hfree.
Qed.

Lemma step_footprints (s s' : State) :
  footprints_in_grid s -> footprints_disjoint s -> no_blank_name s -> step s s' ->
  footprints_in_grid s' /\ footprints_disjoint s' /\ no_blank_name s'.
Proof.
  intros Hgrid Hdis Hnb Hstep.
  pose proof (step_shape _ _ Hstep) as Hshape.
  apply possible_moves_sound in Hstep as (b & i & car & car' & Hget & Hi & Hsl & ->).
  pose proof (slides_footprint s b i car car' Hgrid Hnb Hget Hi Hsl) as Hfp.
  assert (Hlk : forall j c, <[i := car']> s !! j = Some c ->
                  (j = i /\ c = car') \/ (j <> i /\ s !! j = Some c)).
  { intros j c [(-> & -> & _) | (? & ?)]%list_lookup_insert_Some; [by left|].
    right. split; [congruence | done]. }
  split; [|split].
  - intros c [j Hj]%list_elem_of_lookup p Hp.
    destruct (Hlk j c Hj) as [[-> ->] | [_ Hj']].
    + by apply Hfp.
    + apply (Hgrid c); [|done]. apply list_elem_of_lookup. eauto.
  - intros j1 j2 c1 c2 Hne H1 H2 p Hp1 Hp2.
    destruct (Hlk j1 c1 H1) as [[-> ->] | [Hn1 H1']];
      destruct (Hlk j2 c2 H2) as [[-> ->] | [Hn2 H2']]; [done | | |].
    + destruct (Hfp p Hp1) as [_ [Hold | Hfree]].
      * by apply (Hdis i j2 car c2 Hne Hi H2' p).
      * apply (Hfree c2); [|done]. apply list_elem_of_lookup. eauto.
    + destruct (Hfp p Hp2) as [_ [Hold | Hfree]].
      * by apply (Hdis j1 i c1 car Hne H1' Hi p).
      * apply (Hfree c1); [|done]. apply list_elem_of_lookup. eauto.
    + by apply (Hdis j1 j2 c1 c2 Hne H1' H2' p).
  - intros c [j Hj]%list_elem_of_lookup.
    destruct (Hlk j c Hj) as [[-> ->] | [_ Hj']].
    + pose proof (slides_shape _ _ _ Hsl) as Hs. unfold shape in Hs.
      injection Hs as -> _ _. apply Hnb. apply list_elem_of_lookup. eauto.
    + apply Hnb. apply list_elem_of_lookup. eauto.
Qed.

(** ** The deque read as a first-in first-out queue *)

Lemma extendleft_reverse {A} (items : list A) (q : deque A) :
  extendleft items q = reverse items ++ q.
Proof.
  unfold extendleft, appendleft. revert q.
  induction items as [|a items IH]; intros q; simpl; [done|].
  rewrite IH, reverse_cons, <- app_assoc. done.
Qed.

Lemma run_loop_bfs (fuel : nat) (seen : gset State) (q : deque (State * list State)) :
  run_loop fuel seen q = bfs fuel seen (reverse q).
Proof.
  revert seen q. induction fuel as [|fuel IH]; intros seen q; simpl; [done|].
  unfold pop. destruct (reverse q) as [|[board history] r] eqn:Hq; [done|].
  case_decide; [by rewrite IH, reverse_involutive|].
  case_decide; [done|].
  destruct (possible_moves board) as [moves [e|]]; [done|].
  rewrite IH, extendleft_reverse, reverse_app, !reverse_involutive. done.
Qed.

(** ** Paths *)

Lemma path_to_reach (init : State) (h : list State) (v : State) :
  path_to init h v -> reach_in init (length h) v.
Proof.
  induction 1 as [|h u v _ IH Hstep]; [constructor|].
  rewrite length_app. simpl. rewrite Nat.add_1_r. by econstructor.
Qed.

Lemma reach_path_to (init : State) (n : nat) (v : State) :
  reach_in init n v -> exists h, path_to init h v /\ length h = n.
Proof.
  induction 1 as [|n u v _ [h [Hp Hl]] Hstep].
  - exists []. split; [constructor | done].
  - exists (h ++ [u]). split; [by econstructor|].
    rewrite length_app. simpl. lia.
Qed.

(** ** Levels *)

Lemma levels_app (L : nat) (fq new : list (State * list State)) :
  levels L fq -> Forall (fun e => length e.2 = S L) new -> levels L (fq ++ new).
Proof.
  intros Hl Hnew. induction fq as [|[v h] r IH]; simpl in *.
  - induction Hnew as [|[v h] new Hh Hnew IHn]; simpl; [done|]. right. done.
  - destruct Hl as [[Hh Hr] | [Hh Hr]].
    + left. split; [done | by apply IH].
    + right. split; [done|]. by apply Forall_app.
Qed.

Lemma levels_all (L : nat) (fq : list (State * list State)) :
  Forall (fun e => length e.2 = S L) fq -> levels (S L) fq.
Proof.
  induction 1 as [|[v h] r Hh Hr IH]; simpl; [done|]. left. done.
Qed.

Lemma levels_front (L : nat) (v : State) (h : list State)
    (r : list (State * list State)) :
  levels L ((v, h) :: r) ->
  (length h = L /\ levels L r) \/
  (length h = S L /\ Forall (fun e => length e.2 = S L) ((v, h) :: r)).
Proof.
  simpl. intros [[Hh Hr] | [Hh Hr]]; [by left|]. right. split; [done|].
  by constructor.
Qed.

(** ** The search

    The argument is made once, for any set of states [good] that contains
    the initial state, is closed under moves, on which neither the board
    nor the generator raises, and that is finite: it lies in [U]. *)

Section BreadthFirst.
Variable init : State.
Variable good : State -> Prop.
Variable U : gset State.
Variable K : nat.

Hypothesis good_init : good init.
Hypothesis good_step : forall s s', good s -> step s s' -> good s'.
Hypothesis good_moves :
  forall s, good s ->
    (possible_moves s).2 = None /\ (length (possible_moves s).1 <= K)%nat.
Hypothesis good_board : forall s, good s -> exists b, get_board s = Ok b.
Hypothesis good_U : forall s, good s -> s ∈ U.

Implicit Types (seen : gset State) (fq : list (State * list State)).

Local Notation Inv := (search_inv init).
Local Notation measure := (search_measure U K).

Lemma path_to_good h v : path_to init h v -> Forall good h /\ good v.
Proof.
  induction 1 as [|h u v _ [IH1 IH2] Hstep]; [by split|].
  split; [|by eapply good_step].
  apply Forall_app. split; [done|]. by constructor.
Qed.

Lemma mapM_get_board (l : list State) :
  Forall good l -> exists boards, mapM get_board l = Ok boards.
Proof.
  induction 1 as [|s l Hs _ [boards IH]]; simpl; [by eexists|].
  destruct (good_board s Hs) as [b ->]. simpl. rewrite IH. simpl. by eexists.
Qed.

Lemma inv_init : Inv 0 ∅ [(init, [])].
Proof.
  split.
  - intros v h [= -> ->]%list_elem_of_singleton. constructor.
  - simpl. by left.
  - intros u Hu. by apply not_elem_of_empty in Hu.
  - intros m w _ Hm. lia.
  - intros w Hw. inversion Hw; subst. right. exists [].
    split; [by apply list_elem_of_singleton | done].
  - intros u w Hu. by apply not_elem_of_empty in Hu.
Qed.

Lemma inv_bump L seen fq :
  Inv L seen fq -> Forall (fun e => length e.2 = S L) fq -> Inv (S L) seen fq.
Proof.
  intros HI Hall.
  assert (Hlevel : forall w, reach_in init L w -> w ∈ seen).
  { intros w Hw. destruct (inv_level _ _ _ _ HI w Hw) as [?|[h [Hin Hh]]]; [done|].
    pose proof (proj1 (Forall_forall _ _) Hall _ Hin) as Hl. simpl in Hl. lia. }
  split.
  - apply (inv_paths _ _ _ _ HI).
  - by apply levels_all.
  - apply (inv_nogoal _ _ _ _ HI).
  - intros m w Hw Hm. destruct (decide (m = L)) as [->|Hne]; [by apply Hlevel|].
    apply (inv_below _ _ _ _ HI m); [done | lia].
  - intros w Hw. inversion Hw as [|n u w' Hu Hstep]; subst.
    destruct (inv_closed _ _ _ _ HI u w (Hlevel u Hu) Hstep) as [?|[h Hin]];
      [by left|].
    right. exists h. split; [done|].
    by apply (proj1 (Forall_forall _ _) Hall _ Hin).
  - apply (inv_closed _ _ _ _ HI).
Qed.

Lemma inv_front L seen v h fq :
  Inv L seen ((v, h) :: fq) ->
  Inv (length h) seen ((v, h) :: fq) /\ levels (length h) fq.
Proof.
  intros HI. destruct (levels_front _ _ _ _ (inv_levels _ _ _ _ HI))
    as [[Hh Hr] | [Hh Hall]].
  - by rewrite Hh.
  - rewrite Hh. split; [by apply inv_bump|].
    apply levels_all. by inversion Hall.
Qed.

Lemma inv_skip seen v h fq :
  Inv (length h) seen ((v, h) :: fq) -> levels (length h) fq -> v ∈ seen ->
  Inv (length h) seen fq.
Proof.
  intros HI Hlev Hv. split.
  - intros v' h' Hin. apply (inv_paths _ _ _ _ HI). apply elem_of_cons. by right.
  - done.
  - apply (inv_nogoal _ _ _ _ HI).
  - apply (inv_below _ _ _ _ HI).
  - intros w Hw. destruct (inv_level _ _ _ _ HI w Hw) as [?|[h' [Hin Hh']]];
      [by left|].
    apply elem_of_cons in Hin as [[= -> ->]|Hin]; [by left|].
    right. by exists h'.
  - intros u w Hu Hstep.
    destruct (inv_closed _ _ _ _ HI u w Hu Hstep) as [?|[h' Hin]]; [by left|].
    apply elem_of_cons in Hin as [[= -> ->]|Hin]; [by left|].
    right. by exists h'.
Qed.

Lemma inv_expand seen v h fq moves :
  Inv (length h) seen ((v, h) :: fq) -> levels (length h) fq ->
  ~ is_goal v -> possible_moves v = (moves, None) ->
  Inv (length h) ({[v]} ∪ seen)
      (fq ++ ((fun move => (move, h ++ [v])) <$> moves)).
Proof.
  intros HI Hlev Hng Hmoves.
  assert (Hpv : path_to init h v).
  { apply (inv_paths _ _ _ _ HI). apply elem_of_cons. by left. }
  split.
  - intros v' h' [Hin|Hin]%elem_of_app.
    + apply (inv_paths _ _ _ _ HI). apply elem_of_cons. by right.
    + apply list_elem_of_fmap in Hin as [m [[= -> ->] Hm]].
      apply path_S; [done|]. unfold step. by rewrite Hmoves.
  - apply levels_app; [done|]. apply Forall_fmap, Forall_forall.
    intros m _. simpl. rewrite length_app. simpl. lia.
  - intros u [->%elem_of_singleton|Hu]%elem_of_union; [done|].
    by apply (inv_nogoal _ _ _ _ HI).
  - intros m w Hw Hm. apply elem_of_union. right.
    by apply (inv_below _ _ _ _ HI m).
  - intros w Hw. destruct (inv_level _ _ _ _ HI w Hw) as [?|[h' [Hin Hh']]].
    + left. apply elem_of_union. by right.
    + apply elem_of_cons in Hin as [[= -> ->]|Hin].
      * left. apply elem_of_union. left. by apply elem_of_singleton.
      * right. exists h'. split; [|done]. apply elem_of_app. by left.
  - intros u w [->%elem_of_singleton|Hu]%elem_of_union Hstep.
    + right. exists (h ++ [v]). apply elem_of_app. right.
      apply list_elem_of_fmap. exists w. split; [done|].
      unfold step in Hstep. by rewrite Hmoves in Hstep.
    + destruct (inv_closed _ _ _ _ HI u w Hu Hstep) as [?|[h' Hin]].
      * left. apply elem_of_union. by right.
      * apply elem_of_cons in Hin as [[= -> ->]|Hin].
        -- left. apply elem_of_union. left. by apply elem_of_singleton.
        -- right. exists h'. apply elem_of_app. by left.
Qed.

Lemma inv_goal seen v h fq :
  Inv (length h) seen ((v, h) :: fq) -> is_goal v -> min_steps init (length h).
Proof.
  intros HI Hg. split.
  - exists v. split; [|done]. apply path_to_reach.
    apply (inv_paths _ _ _ _ HI). apply elem_of_cons. by left.
  - intros m g Hm Hgoal. destruct (decide (length h <= m)%nat); [done|].
    exfalso. apply (inv_nogoal _ _ _ _ HI g); [|done].
    apply (inv_below _ _ _ _ HI m); [done | lia].
Qed.

Lemma inv_empty L seen : Inv L seen [] -> forall s, reachable init s -> ~ is_goal s.
Proof.
  intros HI s [n Hs]. apply (inv_nogoal _ _ _ _ HI).
  induction Hs as [|n u w Hu IH Hstep].
  - destruct L as [|L].
    + destruct (inv_level _ _ _ _ HI init (reach_O init)) as [?|[h [Hin _]]];
        [done | by apply elem_of_nil in Hin].
    + apply (inv_below _ _ _ _ HI O); [constructor | lia].
  - destruct (inv_closed _ _ _ _ HI u w IH Hstep) as [?|[h Hin]];
      [done | by apply elem_of_nil in Hin].
Qed.

Lemma measure_expand seen v fq (moves : list State) (h' : list State) :
  v ∈ U -> v ∉ seen -> (length moves <= K)%nat ->
  (measure ({[v]} ∪ seen) (fq ++ ((fun move => (move, h')) <$> moves))
   <= measure seen fq)%nat.
Proof.
  intros HU Hv Hlen. unfold search_measure.
  rewrite length_app, length_fmap.
  assert (Hlt : (size (U ∖ ({[v]} ∪ seen)) < size (U ∖ seen))%nat).
  { apply subset_size. set_solver. }
  nia.
Qed.

Lemma bfs_spec fuel : forall seen fq L,
  Inv L seen fq -> (measure seen fq < fuel)%nat ->
  exists r, bfs fuel seen fq = Some r /\ search_post init r.
Proof.
  induction fuel as [|fuel IH]; intros seen fq L HI Hfuel; [lia|].
  destruct fq as [|[v h] fq]; simpl.
  - eexists. split; [done|]. right. split; [|done]. by eapply inv_empty.
  - apply inv_front in HI as [HI Hlev].
    assert (Hpv : path_to init h v).
    { apply (inv_paths _ _ _ _ HI). apply elem_of_cons. by left. }
    destruct (path_to_good h v Hpv) as [Hgh Hgv].
    case_decide as Hseen.
    { apply (IH seen fq (length h)); [by eapply inv_skip|].
      unfold search_measure in *. simpl in Hfuel. lia. }
    case_decide as Hgoal.
    { eexists. split; [done|]. left.
      destruct (mapM_get_board (h ++ [v])) as [boards Hb].
      { apply Forall_app. split; [done | by constructor]. }
      exists h, v, boards. unfold solution_found. rewrite Hb.
      split; [done|]. split; [done|]. split; [by eapply inv_goal | done]. }
    destruct (good_moves v Hgv) as [Hnone Hlen].
    destruct (possible_moves v) as [moves e] eqn:Hmoves. simpl in Hnone, Hlen.
    subst e.
    apply (IH _ _ (length h)); [by apply inv_expand|].
    pose proof (measure_expand seen v fq moves (h ++ [v]) (good_U v Hgv) Hseen Hlen).
    unfold search_measure in *. simpl in Hfuel. lia.
Qed.

Lemma run_spec (fuel : nat) :
  (size U * K + 1 < fuel)%nat ->
  exists r, run fuel init = Some r /\ search_post init r.
Proof.
  intros Hfuel. unfold run. rewrite run_loop_bfs.
  apply (bfs_spec fuel ∅ _ 0); [apply inv_init|].
  unfold search_measure, appendleft. simpl.
  assert (size (U ∖ ∅) <= size U)%nat by (apply subseteq_size; set_solver).
  nia.
Qed.
End BreadthFirst.

(** ** The universe of a configuration *)

Lemma elem_of_positions (p : Z * Z) : p ∈ positions <-> in_grid p.
Proof.
  unfold positions, in_grid. rewrite list_elem_of_bind. split.
  - intros (r & Hc & Hr). apply list_elem_of_bind in Hc as (c & Hp & Hc).
    apply list_elem_of_singleton in Hp as ->.
    apply elem_of_range in Hr, Hc. done.
  - intros [Hr Hc]. exists p.1. split; [|by apply elem_of_range].
    apply list_elem_of_bind. exists p.2. split; [|by apply elem_of_range].
    apply list_elem_of_singleton. by destruct p.
Qed.

Lemma car_ok_position (car : Car.t) : car_ok car -> in_grid (Car.x car, Car.y car).
Proof.
  unfold car_ok, in_grid, BOARD_SIZE. simpl. intros (? & ? & ? & H).
  destruct (Car.direction car); lia.
Qed.

Lemma placements_cons (car : Car.t) (cars : State) :
  placements (car :: cars) =
  p ← positions; rest ← placements cars;
  [Car.mk (Car.name car) p.1 p.2 (Car.size car) (Car.direction car) :: rest].
Proof. reflexivity. Qed.

Lemma placements_complete (init s : State) : in_universe init s -> s ∈ placements init.
Proof.
  intros [Hshape Hok]. revert s Hshape Hok.
  induction init as [|car init IH]; intros s Hshape Hok.
  - apply fmap_nil_inv in Hshape as ->. by apply list_elem_of_singleton.
  - destruct s as [|car' s]; [done|]. simpl in Hshape.
    injection Hshape as Hn Hs Hd Hrest. apply Forall_cons in Hok as [Hcar' Hok].
    rewrite placements_cons. apply list_elem_of_bind.
    exists (Car.x car', Car.y car').
    split; [|by apply elem_of_positions, car_ok_position].
    apply list_elem_of_bind. exists s. split; [|by apply IH].
    apply list_elem_of_singleton. destruct car'. simpl in *. congruence.
Qed.

Lemma in_universe_step (init s s' : State) :
  in_universe init s -> step s s' -> in_universe init s'.
Proof.
  intros [Hshape Hok] Hstep. split.
  - by rewrite (step_shape _ _ Hstep).
  - by eapply step_car_ok.
Qed.

Lemma in_universe_moves (init s : State) :
  in_universe init s ->
  (possible_moves s).2 = None /\
  (length (possible_moves s).1 <= 2 * length init)%nat.
Proof.
  intros [Hshape Hok]. split.
  - by destruct (possible_moves_complete s Hok) as (b & _ & _ & Hnone & _).
  - etrans; [apply possible_moves_length|].
    apply (f_equal length) in Hshape. rewrite !length_fmap in Hshape. lia.
Qed.

Lemma search_terminates (init : State) :
  Forall car_ok init ->
  exists fuel0, forall fuel, (fuel0 <= fuel)%nat ->
    exists r, run fuel init = Some r /\ search_post init r.
Proof.
  intros Hok.
  exists (size (list_to_set (placements init) : gset State) * (2 * length init) + 2)%nat.
  intros fuel Hfuel.
  apply (run_spec init (in_universe init) (list_to_set (placements init))
           (2 * length init)%nat).
  - by split.
  - apply in_universe_step.
  - apply in_universe_moves.
  - intros s [_ Hs]. destruct (get_board_ok s Hs) as (b & Hb & _). by exists b.
  - intros s Hs. apply elem_of_list_to_set. by apply placements_complete.
  - lia.
Qed.


(** Closed decidable facts, by evaluation. *)
Ltac decide_by_compute :=
  unfold step, is_goal; apply (bool_decide_unpack _); vm_compute; exact I.

Lemma no_target_unsolvable (init : State) :
  shape ENDPOINT ∉ shape <$> init ->
  forall s, reachable init s -> ~ is_goal s.
Proof.
  intros Hno s [n Hs] Hg. apply Hno.
  rewrite <- (reach_in_shape _ _ _ Hs). apply list_elem_of_fmap.
  by exists ENDPOINT.
Qed.

(** * The claims *)

(** ** C1: the search returns a shortest solution *)


Lemma blocked_once_ok : Forall car_ok blocked_once.
Proof. repeat constructor; unfold BOARD_SIZE; simpl; lia. Qed.

Lemma blocked_once_solvable : exists g, reachable blocked_once g /\ is_goal g.
Proof.
  exists [ENDPOINT; Car.mk "b" 0 4 2 VERTICAL]. split.
  - exists 3%nat.
    apply (reach_S _ _ [Car.mk "r" 2 3 2 HORIZONTAL; Car.mk "b" 0 4 2 VERTICAL]).
    + apply (reach_S _ _ [Car.mk "r" 2 2 2 HORIZONTAL; Car.mk "b" 0 4 2 VERTICAL]).
      * apply (reach_S _ _ blocked_once); [constructor|].
        decide_by_compute.
      * decide_by_compute.
    + decide_by_compute.
  - decide_by_compute.
Qed.


(** ** C5: the unsolvable outcome *)

(** C5, as the code has it.  For every configuration whose cars lie on the
    grid and from which no goal state can be reached, [run] terminates,
    given enough fuel, when its queue empties: it does not raise, it logs
    nothing, and it returns [None], the value it also returns on
    success. *)
Theorem run_unsolvable (init : State) :
  Forall car_ok init ->
  (forall s, reachable init s -> ~ is_goal s) ->
  exists fuel0, forall fuel, (fuel0 <= fuel)%nat ->
    run fuel init = Some ([], Ok tt).
Proof.
  intros Hok Hnone.
  destruct (search_terminates init Hok) as [fuel0 Hrun].
  exists fuel0. intros fuel Hfuel.
  destruct (Hrun fuel Hfuel) as [r [Hr Hpost]].
  destruct Hpost as [(h & g & boards & Hp & Hg & _) | [_ ->]]; [|done].
  destruct (Hnone g); [|done]. exists (length h). by apply path_to_reach.
Qed.

Lemma run_unsolvable_witness :
  exists fuel0, forall fuel, (fuel0 <= fuel)%nat ->
    run fuel no_target = Some ([], Ok tt).
Proof.
  apply (run_unsolvable no_target).
  - repeat constructor; unfold BOARD_SIZE; simpl; lia.
  - apply no_target_unsolvable. decide_by_compute.
Defined.

(** C5 as stated fails: on a configuration without the target car the
    search returns the same value as on a solved one, the only difference
    being that nothing was logged; and on a configuration with a car off
    the board it raises. *)
Lemma run_unsolvable_not_distinct :
  (forall s, reachable no_target s -> ~ is_goal s) /\
  is_goal already_solved /\
  (exists log, run 100 no_target = Some ([], Ok tt) /\
               run 100 already_solved = Some (log, Ok tt)) /\
  (forall s, reachable off_board s -> ~ is_goal s) /\
  run 100 off_board = Some ([], Raise IndexError).
Proof.
  split; [|split; [|split; [|split]]].
  - apply no_target_unsolvable. decide_by_compute.
  - decide_by_compute.
  - eexists. split; vm_compute; reflexivity.
  - apply no_target_unsolvable. decide_by_compute.
  - vm_compute. reflexivity.
Qed.

(** ** C2: the move generator yields exactly the one-cell slides *)

Lemma moved_lookup (s : State) (b : Board) (i i' : nat) (car car' c c' : Car.t) :
  s !! i = Some car -> s !! i' = Some c -> slides b c c' ->
  <[i := car']> s = <[i' := c']> s -> car' <> car ->
  i' = i /\ c = car /\ c' = car'.
Proof.
  intros Hi Hi' Hsl Heq Hne.
  assert (Hlt : (i < length s)%nat) by (by apply lookup_lt_Some in Hi).
  apply (f_equal (fun l => l !! i)) in Heq.
  rewrite list_lookup_insert_eq in Heq by done.
  destruct (decide (i' = i)) as [->|Hn].
  - rewrite list_lookup_insert_eq in Heq by done. split; [done|].
    split; congruence.
  - rewrite list_lookup_insert_ne in Heq by done. congruence.
Qed.

Lemma blank_free (s : State) (b : Board) :
  no_blank_name s ->
  (forall p, in_grid p -> board_get b p.1 p.2 = Ok (label s p)) ->
  forall p, in_grid p -> (board_get b p.1 p.2 = Ok EMPTY_CELL <-> free s p).
Proof.
  intros Hnb Hlab p Hp. rewrite (Hlab p Hp). split.
  - intros [= Hl]. by apply (label_from_blank EMPTY_CELL).
  - intros Hfree. unfold label. by rewrite label_from_free.
Qed.

(** The generator in terms of the board.  For every state whose cars lie
    on the grid, the generator raises
    nothing and yields exactly the one-cell slides: for the car at any
    index, the state with that car moved right is yielded iff the car is
    horizontal, [y + size < 6] and the board cell right of its rightmost
    cell is empty; left iff horizontal, [y > 0] and the cell left of it is
    empty; down and up likewise for a vertical car; and every yielded
    state is the input with one car replaced by such a slide of it, which
    keeps its name, size and direction.  When no car is named like the
    empty cell, a board cell is empty exactly when no car covers it. *)
Lemma possible_moves_exact (s : State) :
  Forall car_ok s ->
  exists b, get_board s = Ok b /\
    (possible_moves s).2 = None /\
    (forall (i : nat) car, s !! i = Some car ->
       (<[i := move_right car]> s ∈ (possible_moves s).1 <->
          Car.direction car = HORIZONTAL /\ Car.y car + Car.size car < BOARD_SIZE /\
          board_get b (Car.x car) (Car.y car + Car.size car) = Ok EMPTY_CELL) /\
       (<[i := move_left car]> s ∈ (possible_moves s).1 <->
          Car.direction car = HORIZONTAL /\ Car.y car > 0 /\
          board_get b (Car.x car) (Car.y car - 1) = Ok EMPTY_CELL) /\
       (<[i := move_down car]> s ∈ (possible_moves s).1 <->
          Car.direction car = VERTICAL /\ Car.x car + Car.size car < BOARD_SIZE /\
          board_get b (Car.x car + Car.size car) (Car.y car) = Ok EMPTY_CELL) /\
       (<[i := move_up car]> s ∈ (possible_moves s).1 <->
          Car.direction car = VERTICAL /\ Car.x car > 0 /\
          board_get b (Car.x car - 1) (Car.y car) = Ok EMPTY_CELL)) /\
    (forall s', s' ∈ (possible_moves s).1 ->
       exists (i : nat) car car',
         s !! i = Some car /\ slides b car car' /\ s' = <[i := car']> s /\
         shape car' = shape car) /\
    (no_blank_name s ->
       forall p, in_grid p -> (board_get b p.1 p.2 = Ok EMPTY_CELL <-> free s p)).
Proof.
  intros Hs.
  destruct (possible_moves_complete s Hs) as (b & Hget & Hb & Hnone & Hiff).
  destruct (get_board_ok s Hs) as (b' & Hget' & _ & Hlab).
  rewrite Hget in Hget'. injection Hget' as <-.
  exists b. split; [done|]. split; [done|]. split; [|split].
  - intros i car Hi.
    assert (Hto : forall car', car' <> car ->
              <[i := car']> s ∈ (possible_moves s).1 -> slides b car car').
    { intros car' Hne (i' & c & c' & Hi' & Hsl & Heq)%Hiff.
      destruct (moved_lookup s b i i' car car' c c' Hi Hi' Hsl Heq Hne)
        as (-> & -> & ->). done. }
    assert (Hfrom : forall car', slides b car car' ->
              <[i := car']> s ∈ (possible_moves s).1).
    { intros car' Hsl. apply Hiff. by exists i, car, car'. }
    unfold slides in Hto, Hfrom. unfold move_right, move_left, move_down, move_up in *.
    split; [|split; [|split]].
    + split.
      * intros H. apply Hto in H; [|destruct car; simpl; intros [=]; lia].
        destruct H as [(? & ? & ? & _) | [(_ & _ & _ & [=]) |
                      [(_ & _ & _ & [=]) | (_ & _ & _ & [=])]]]; [done|lia..].
      * intros (? & ? & ?). apply Hfrom. left. done.
    + split.
      * intros H. apply Hto in H; [|destruct car; simpl; intros [=]; lia].
        destruct H as [(_ & _ & _ & [=]) | [(? & ? & ? & _) |
                      [(_ & _ & _ & [=]) | (_ & _ & _ & [=])]]]; [lia|done|lia..].
      * intros (? & ? & ?). apply Hfrom. right. left. done.
    + split.
      * intros H. apply Hto in H; [|destruct car; simpl; intros [=]; lia].
        destruct H as [(_ & _ & _ & [=]) | [(_ & _ & _ & [=]) |
                      [(? & ? & ? & _) | (_ & _ & _ & [=])]]]; [lia|lia|done|lia].
      * intros (? & ? & ?). apply Hfrom. right. right. left. done.
    + split.
      * intros H. apply Hto in H; [|destruct car; simpl; intros [=]; lia].
        destruct H as [(_ & _ & _ & [=]) | [(_ & _ & _ & [=]) |
                      [(_ & _ & _ & [=]) | (? & ? & ? & _)]]]; [lia|lia|lia|done].
      * intros (? & ? & ?). apply Hfrom. right. right. right. done.
  - intros s' (i & car & car' & Hi & Hsl & ->)%Hiff.
    exists i, car, car'. split; [done|]. split; [done|]. split; [done|].
    by eapply slides_shape.
  - intros Hnb. by apply blank_free.
Qed.

Lemma slides_legal (s : State) (b : Board) (car car' : Car.t) :
  car_ok car ->
  (forall p, in_grid p -> (board_get b p.1 p.2 = Ok EMPTY_CELL <-> free s p)) ->
  slides b car car' <-> legal_slide s car car'.
Proof.
  intros (Hsz & Hx & Hy & Hdir) Hfree. unfold slides, legal_slide.
  assert (Hcell : forall r c, 0 <= r < BOARD_SIZE -> 0 <= c < BOARD_SIZE ->
            (board_get b r c = Ok EMPTY_CELL <-> free s (r, c))).
  { intros r c Hr Hc. apply (Hfree (r, c)). by split. }
  unfold BOARD_SIZE in *.
  destruct (Car.direction car) eqn:Hd; [| |done].
  - split; intros [(? & ? & Hc & ?) | [(? & ? & Hc & ?) | [(? & _) | (? & _)]]];
      try done.
    + left. split; [done|]. split; [done|]. split; [|done]. apply Hcell; [lia..|done].
    + right; left. split; [done|]. split; [done|]. split; [|done].
      apply Hcell; [lia..|done].
    + left. split; [done|]. split; [done|]. split; [|done]. apply Hcell; [lia..|done].
    + right; left. split; [done|]. split; [done|]. split; [|done].
      apply Hcell; [lia..|done].
  - split; intros [(? & _) | [(? & _) | [(? & ? & Hc & ?) | (? & ? & Hc & ?)]]];
      try done.
    + right; right; left. split; [done|]. split; [done|]. split; [|done].
      apply Hcell; [lia..|done].
    + right; right; right. split; [done|]. split; [done|]. split; [|done].
      apply Hcell; [lia..|done].
    + right; right; left. split; [done|]. split; [done|]. split; [|done].
      apply Hcell; [lia..|done].
    + right; right; right. split; [done|]. split; [done|]. split; [|done].
      apply Hcell; [lia..|done].
Qed.

Lemma legal_slide_shift (s : State) (car car' : Car.t) :
  legal_slide s car car' ->
  Car.name car' = Car.name car /\ Car.size car' = Car.size car /\
  Car.direction car' = Car.direction car /\
  ((Car.direction car = HORIZONTAL /\ Car.x car' = Car.x car /\
    (Car.y car' = Car.y car + 1 \/ Car.y car' = Car.y car - 1)) \/
   (Car.direction car = VERTICAL /\ Car.y car' = Car.y car /\
    (Car.x car' = Car.x car + 1 \/ Car.x car' = Car.x car - 1))).
Proof.
  intros [(Hd & _ & _ & ->) | [(Hd & _ & _ & ->) | [(Hd & _ & _ & ->) | (Hd & _ & _ & ->)]]];
    simpl; (split; [done|]); (split; [done|]); (split; [done|]).
  - left. split; [done|]. split; [done | by left].
  - left. split; [done|]. split; [done | by right].
  - right. split; [done|]. split; [done | by left].
  - right. split; [done|]. split; [done | by right].
Qed.

(** C2, as the code has it.  For every state whose cars lie on the grid
    and in which no car is named like the empty cell, the generator raises
    nothing and yields exactly the legal one-cell slides: for the car at
    any index, the state with that car moved right is yielded iff the car
    is horizontal, [y + size < 6] and no car covers the cell right of its
    rightmost cell; left iff horizontal, [y > 0] and no car covers the
    cell left of its leftmost cell; down and up likewise for a vertical
    car; the yielded states are exactly the input with one car replaced by
    such a slide of it; and a slide keeps the name, size and direction of
    the car and shifts its row or column by exactly one along its axis. *)
Theorem possible_moves_legal (s : State) :
  Forall car_ok s -> no_blank_name s ->
  (possible_moves s).2 = None /\
  (forall (i : nat) car, s !! i = Some car ->
     (<[i := move_right car]> s ∈ (possible_moves s).1 <->
        Car.direction car = HORIZONTAL /\ Car.y car + Car.size car < BOARD_SIZE /\
        free s (Car.x car, Car.y car + Car.size car)) /\
     (<[i := move_left car]> s ∈ (possible_moves s).1 <->
        Car.direction car = HORIZONTAL /\ Car.y car > 0 /\
        free s (Car.x car, Car.y car - 1)) /\
     (<[i := move_down car]> s ∈ (possible_moves s).1 <->
        Car.direction car = VERTICAL /\ Car.x car + Car.size car < BOARD_SIZE /\
        free s (Car.x car + Car.size car, Car.y car)) /\
     (<[i := move_up car]> s ∈ (possible_moves s).1 <->
        Car.direction car = VERTICAL /\ Car.x car > 0 /\
        free s (Car.x car - 1, Car.y car))) /\
  (forall s', s' ∈ (possible_moves s).1 <->
     exists (i : nat) car car',
       s !! i = Some car /\ legal_slide s car car' /\ s' = <[i := car']> s) /\
  (forall car car', legal_slide s car car' ->
     Car.name car' = Car.name car /\ Car.size car' = Car.size car /\
     Car.direction car' = Car.direction car /\
     ((Car.direction car = HORIZONTAL /\ Car.x car' = Car.x car /\
       (Car.y car' = Car.y car + 1 \/ Car.y car' = Car.y car - 1)) \/
      (Car.direction car = VERTICAL /\ Car.y car' = Car.y car /\
       (Car.x car' = Car.x car + 1 \/ Car.x car' = Car.x car - 1)))).
Proof.
  intros Hs Hnb.
  destruct (possible_moves_exact s Hs) as (b & Hget & Hnone & Hdirs & _ & Hfree).
  specialize (Hfree Hnb).
  destruct (possible_moves_complete s Hs) as (b' & Hget' & _ & _ & Hiff).
  rewrite Hget in Hget'. injection Hget' as <-.
  split; [done|]. split; [|split; [|apply legal_slide_shift]].
  - intros i car Hi.
    pose proof (Forall_lookup_1 _ _ _ _ Hs Hi) as (Hsz & Hx & Hy & Hdir).
    destruct (Hdirs i car Hi) as (Hr & Hl & Hd & Hu).
    assert (Hcell : forall r c, 0 <= r < BOARD_SIZE -> 0 <= c < BOARD_SIZE ->
              (board_get b r c = Ok EMPTY_CELL <-> free s (r, c))).
    { intros r c Hr' Hc'. apply (Hfree (r, c)). by split. }
    unfold BOARD_SIZE in *.
    split; [|split; [|split]].
    + rewrite Hr. split; intros (Hd' & Hlt & Hc); rewrite Hd' in Hdir;
        (split; [done|]); (split; [done|]); apply Hcell; (lia || done).
    + rewrite Hl. split; intros (Hd' & Hlt & Hc); rewrite Hd' in Hdir;
        (split; [done|]); (split; [done|]); apply Hcell; (lia || done).
    + rewrite Hd. split; intros (Hd' & Hlt & Hc); rewrite Hd' in Hdir;
        (split; [done|]); (split; [done|]); apply Hcell; (lia || done).
    + rewrite Hu. split; intros (Hd' & Hlt & Hc); rewrite Hd' in Hdir;
        (split; [done|]); (split; [done|]); apply Hcell; (lia || done).
  - intros s'. unfold step in Hiff. rewrite Hiff. split.
    + intros (i & car & car' & Hi & Hsl & ->). exists i, car, car'.
      split; [done|]. split; [|done].
      apply (slides_legal s b); [|done|done].
      by apply (Forall_lookup_1 _ _ _ _ Hs Hi).
    + intros (i & car & car' & Hi & Hsl & ->). exists i, car, car'.
      split; [done|]. split; [|done].
      apply (slides_legal s b); [|done|done].
      by apply (Forall_lookup_1 _ _ _ _ Hs Hi).
Qed.

Lemma possible_moves_legal_witness :
  (possible_moves blocked_once).2 = None /\
  (forall (i : nat) car, blocked_once !! i = Some car ->
     (<[i := move_right car]> blocked_once ∈ (possible_moves blocked_once).1 <->
        Car.direction car = HORIZONTAL /\ Car.y car + Car.size car < BOARD_SIZE /\
        free blocked_once (Car.x car, Car.y car + Car.size car)) /\
     (<[i := move_left car]> blocked_once ∈ (possible_moves blocked_once).1 <->
        Car.direction car = HORIZONTAL /\ Car.y car > 0 /\
        free blocked_once (Car.x car, Car.y car - 1)) /\
     (<[i := move_down car]> blocked_once ∈ (possible_moves blocked_once).1 <->
        Car.direction car = VERTICAL /\ Car.x car + Car.size car < BOARD_SIZE /\
        free blocked_once (Car.x car + Car.size car, Car.y car)) /\
     (<[i := move_up car]> blocked_once ∈ (possible_moves blocked_once).1 <->
        Car.direction car = VERTICAL /\ Car.x car > 0 /\
        free blocked_once (Car.x car - 1, Car.y car))) /\
  (forall s', s' ∈ (possible_moves blocked_once).1 <->
     exists (i : nat) car car',
       blocked_once !! i = Some car /\ legal_slide blocked_once car car' /\
       s' = <[i := car']> blocked_once) /\
  (forall car car', legal_slide blocked_once car car' ->
     Car.name car' = Car.name car /\ Car.size car' = Car.size car /\
     Car.direction car' = Car.direction car /\
     ((Car.direction car = HORIZONTAL /\ Car.x car' = Car.x car /\
       (Car.y car' = Car.y car + 1 \/ Car.y car' = Car.y car - 1)) \/
      (Car.direction car = VERTICAL /\ Car.y car' = Car.y car /\
       (Car.x car' = Car.x car + 1 \/ Car.x car' = Car.x car - 1)))).
Proof.
  apply (possible_moves_legal blocked_once).
  - exact blocked_once_ok.
  - intros car Hcar.
    repeat (apply elem_of_cons in Hcar as [->|Hcar]);
      [done | done | by apply elem_of_nil in Hcar].
Defined.

(** C2 as stated fails when a car is named like the empty cell: its cells
    read as empty on the board, and the generator yields the move of the
    next car to the left although the cell left of it is covered. *)
Lemma blank_name_illegal_move :
  Forall car_ok blank_named /\
  footprints_in_grid blank_named /\ footprints_disjoint blank_named /\
  blank_named !! 1%nat = Some (Car.mk "b" 0 2 2 HORIZONTAL) /\
  <[1%nat := move_left (Car.mk "b" 0 2 2 HORIZONTAL)]> blank_named
    ∈ (possible_moves blank_named).1 /\
  ~ free blank_named (0, 2 - 1).
Proof.
  split; [repeat constructor; unfold BOARD_SIZE; simpl; lia|].
  split; [intros car Hcar p Hp; apply elem_of_footprint in Hp;
          repeat (apply elem_of_cons in Hcar as [->|Hcar]);
          [..|by apply elem_of_nil in Hcar];
          unfold in_grid, BOARD_SIZE; simpl in Hp; lia|].
  split; [intros i j ci cj Hne Hi Hj p Hpi Hpj;
          apply elem_of_footprint in Hpi; apply elem_of_footprint in Hpj;
          destruct i as [|[|i]], j as [|[|j]]; simpl in Hi, Hj;
          try done; injection Hi as <-; injection Hj as <-;
          simpl in Hpi, Hpj; lia|].
  split; [done|]. split.
  - apply (bool_decide_unpack _). vm_compute. exact I.
  - intros Hfree.
    apply (Hfree (Car.mk " " 0 0 2 HORIZONTAL)); [apply elem_of_cons; by left|].
    apply elem_of_footprint. simpl. lia.
Qed.

(** ** C6: footprints stay on the grid and disjoint *)

Lemma reach_in_footprints (init s : State) (n : nat) :
  footprints_in_grid init -> footprints_disjoint init -> no_blank_name init ->
  reach_in init n s ->
  footprints_in_grid s /\ footprints_disjoint s /\ no_blank_name s.
Proof.
  intros Hg Hd Hnb. induction 1 as [|n s s' _ (IHg & IHd & IHn) Hstep]; [done|].
  by apply (step_footprints s s').
Qed.

(** C6, as the code has it.  For every state reached by moves of the
    generator from a configuration whose footprints lie on the grid and
    are pairwise disjoint, and in which no car is named like the empty
    cell, every footprint lies on the grid and no two cars share a cell. *)
Theorem reachable_footprints (init s : State) :
  footprints_in_grid init -> footprints_disjoint init -> no_blank_name init ->
  reachable init s ->
  footprints_in_grid s /\ footprints_disjoint s.
Proof.
  intros Hg Hd Hnb [n Hs].
  destruct (reach_in_footprints init s n Hg Hd Hnb Hs) as (? & ? & _). done.
Qed.

(** Footprint facts of a two-car configuration, by cases on the indices. *)
Ltac two_cars_in_grid :=
  intros car Hcar p Hp; apply elem_of_footprint in Hp;
  repeat (apply elem_of_cons in Hcar as [->|Hcar]);
  [..|by apply elem_of_nil in Hcar];
  unfold in_grid, BOARD_SIZE; simpl in Hp; lia.

Ltac two_cars_disjoint :=
  intros i j ci cj Hne Hi Hj p Hpi Hpj;
  apply elem_of_footprint in Hpi; apply elem_of_footprint in Hpj;
  destruct i as [|[|i]], j as [|[|j]]; simpl in Hi, Hj;
  try done; injection Hi as <-; injection Hj as <-; simpl in Hpi, Hpj; lia.

Ltac two_cars_named :=
  intros car Hcar;
  repeat (apply elem_of_cons in Hcar as [->|Hcar]);
  [..|by apply elem_of_nil in Hcar]; done.

Lemma reachable_footprints_witness :
  footprints_in_grid [Car.mk "r" 2 3 2 HORIZONTAL; Car.mk "b" 0 4 2 VERTICAL] /\
  footprints_disjoint [Car.mk "r" 2 3 2 HORIZONTAL; Car.mk "b" 0 4 2 VERTICAL].
Proof.
  apply (reachable_footprints blocked_once).
  - two_cars_in_grid.
  - two_cars_disjoint.
  - two_cars_named.
  - exists 2%nat.
    apply (reach_S _ _ [Car.mk "r" 2 2 2 HORIZONTAL; Car.mk "b" 0 4 2 VERTICAL]).
    + apply (reach_S _ _ blocked_once); [constructor|]. decide_by_compute.
    + decide_by_compute.
Defined.

(** C6 as stated fails when a car is named like the empty cell: its cells
    read as empty, and the car next to it moves onto them. *)
Lemma blank_name_overlap :
  footprints_in_grid blank_named /\ footprints_disjoint blank_named /\
  reachable blank_named blank_overrun /\
  ~ footprints_disjoint blank_overrun.
Proof.
  split; [two_cars_in_grid|]. split; [two_cars_disjoint|]. split.
  - exists 1%nat. apply (reach_S _ _ blank_named); [constructor|].
    decide_by_compute.
  - intros H.
    apply (H 0%nat 1%nat (Car.mk " " 0 0 2 HORIZONTAL) (Car.mk "b" 0 1 2 HORIZONTAL)
             ltac:(done) eq_refl eq_refl (0, 1)).
    + apply elem_of_footprint. simpl. lia.
    + apply elem_of_footprint. simpl. lia.
Qed.

(** ** C9: moves keep the tuple layout *)

Lemma shape_same_layout (s s' : State) :
  shape <$> s' = shape <$> s -> same_layout s s'.
Proof.
  intros Hshape. split.
  - apply (f_equal length) in Hshape. by rewrite !length_fmap in Hshape.
  - intros i car car' Hi Hi'.
    apply (f_equal (fun l => l !! i)) in Hshape.
    rewrite !list_lookup_fmap, Hi, Hi' in Hshape. simpl in Hshape.
    unfold shape in Hshape. injection Hshape as -> -> ->. done.
Qed.

(** C9. Every state yielded by the generator has as many cars as its
    input, and the car at each index keeps its name, size and direction;
    so every state reached from an initial configuration, and each of its
    successors, lists the cars of the initial configuration in the same
    order. *)
Theorem moves_keep_layout (init s s' : State) :
  reachable init s -> s' ∈ (possible_moves s).1 ->
  same_layout s s' /\ same_layout init s /\ same_layout init s'.
Proof.
  intros [n Hs] Hstep.
  pose proof (reach_in_shape _ _ _ Hs) as H1.
  pose proof (step_shape _ _ Hstep) as H2.
  split; [|split]; apply shape_same_layout; congruence.
Qed.

Lemma moves_keep_layout_witness :
  same_layout blocked_once [Car.mk "r" 2 2 2 HORIZONTAL; Car.mk "b" 0 4 2 VERTICAL] /\
  same_layout blocked_once blocked_once /\
  same_layout blocked_once [Car.mk "r" 2 2 2 HORIZONTAL; Car.mk "b" 0 4 2 VERTICAL].
Proof.
  apply (moves_keep_layout blocked_once blocked_once).
  - exists 0%nat. constructor.
  - decide_by_compute.
Defined.

(** ** C10: what board construction raises, and overlaps *)

(** C10, as the code has it.  On a state whose footprints lie on the grid,
    board construction raises iff some car's direction is neither
    horizontal nor vertical, and what it raises is [ValueError]; when all
    directions are valid it raises nothing, overlapping or not, and in the
    grid it returns a cell no car covers is empty and a covered cell holds
    the name of the last car in tuple order that covers it. *)
Theorem get_board_spec (cars : State) :
  footprints_in_grid cars ->
  ((exists e, get_board cars = Raise e) <->
     (exists car, car ∈ cars /\ ~ valid_direction car)) /\
  (forall e, get_board cars = Raise e -> e = ValueError) /\
  ((forall car, car ∈ cars -> valid_direction car) ->
   exists b, get_board cars = Ok b /\
     (forall p, in_grid p -> free cars p -> board_get b p.1 p.2 = Ok EMPTY_CELL) /\
     (forall (i : nat) car p,
        cars !! i = Some car -> p ∈ footprint car ->
        (forall (j : nat) car', (i < j)%nat -> cars !! j = Some car' ->
           p ∉ footprint car') ->
        board_get b p.1 p.2 = Ok (Car.name car))).
Proof.
  intros Hgrid.
  assert (Hok : (forall car, car ∈ cars -> valid_direction car) ->
     exists b, get_board cars = Ok b /\
       forall p, in_grid p -> board_get b p.1 p.2 = Ok (label cars p)).
  { intros Hv. destruct (get_board_in_grid cars Hv Hgrid) as (b & ? & _ & ?).
    by exists b. }
  assert (Hbad : (exists car, car ∈ cars /\ ~ valid_direction car) ->
                 get_board cars = Raise ValueError).
  { apply place_cars_bad_direction; [apply empty_board_ok | done]. }
  assert (Hcases : (forall car, car ∈ cars -> valid_direction car) \/
                   (exists car, car ∈ cars /\ ~ valid_direction car)).
  { destruct (decide (Forall valid_direction cars)) as [H|H].
    - left. by apply Forall_forall.
    - right. apply not_Forall_Exists in H; [|apply _].
      by apply Exists_exists in H. }
  split; [|split].
  - split; [|intros H; rewrite (Hbad H); by eexists].
    intros [e He]. destruct Hcases as [Hv|?]; [|done].
    destruct (Hok Hv) as (b & Hb & _). congruence.
  - intros e He. destruct Hcases as [Hv|H].
    + destruct (Hok Hv) as (b & Hb & _). congruence.
    + rewrite (Hbad H) in He. congruence.
  - intros Hv. destruct (Hok Hv) as (b & Hb & Hlab). exists b.
    split; [done|]. split.
    + intros p Hp Hfree. rewrite (Hlab p Hp). unfold label.
      by rewrite label_from_free.
    + intros i car p Hi Hp Hlast.
      assert (Hin : in_grid p).
      { apply (Hgrid car); [|done]. apply list_elem_of_lookup. eauto. }
      rewrite (Hlab p Hin). unfold label.
      by rewrite (label_from_last _ _ _ i car).
Qed.

Lemma get_board_spec_witness :
  ((exists e, get_board overlapping = Raise e) <->
     (exists car, car ∈ overlapping /\ ~ valid_direction car)) /\
  (forall e, get_board overlapping = Raise e -> e = ValueError) /\
  ((forall car, car ∈ overlapping -> valid_direction car) ->
   exists b, get_board overlapping = Ok b /\
     (forall p, in_grid p -> free overlapping p ->
        board_get b p.1 p.2 = Ok EMPTY_CELL) /\
     (forall (i : nat) car p,
        overlapping !! i = Some car -> p ∈ footprint car ->
        (forall (j : nat) car', (i < j)%nat -> overlapping !! j = Some car' ->
           p ∉ footprint car') ->
        board_get b p.1 p.2 = Ok (Car.name car))).
Proof.
  apply (get_board_spec overlapping). two_cars_in_grid.
Defined.

(** C10 as stated fails: a car of valid direction placed off the board
    makes board construction raise, an [IndexError]. *)
Lemma get_board_index_error :
  (forall car, car ∈ off_board -> valid_direction car) /\
  get_board off_board = Raise IndexError.
Proof.
  split; [|vm_compute; reflexivity].
  intros car ->%list_elem_of_singleton. by left.
Qed.

(** ** C7: the goal condition *)

(** C7. A state satisfies the goal condition, the test [ENDPOINT in board]
    that ends the search, iff one of its cars has name "r", row 2,
    column 4, size 2 and horizontal direction; the rightmost cell of that
    car is in the last column; and the search of a state stops at once,
    reporting 0 steps, iff the state satisfies the condition. *)
Theorem goal_condition (board : State) :
  (is_goal board <->
     exists car, car ∈ board /\ Car.name car = "r" /\ Car.x car = 2 /\
       Car.y car = 4 /\ Car.size car = 2 /\ Car.direction car = HORIZONTAL) /\
  Car.y ENDPOINT + Car.size ENDPOINT - 1 = BOARD_SIZE - 1 /\
  (is_goal board <->
     exists r, run 1 board = Some r /\ reported_steps r = Some 0).
Proof.
  split; [|split; [done|]].
  - unfold is_goal. split.
    + intros H. exists ENDPOINT. by repeat split.
    + intros (car & Hin & Hn & Hx & Hy & Hs & Hd).
      destruct car. simpl in *. subst. done.
  - unfold run, appendleft, is_goal. simpl. unfold pop. simpl.
    rewrite decide_False by apply not_elem_of_empty.
    case_decide as Hg.
    + split; [|done]. intros _. eexists. split; [done|].
      unfold solution_found. by destruct (mapM get_board _).
    + split; [done|]. intros [r [Hr Hrep]].
      destruct (possible_moves board) as [moves [e|]]; [|done].
      injection Hr as <-. done.
Qed.

(** ** C3: equality of states *)

Lemma same_names_perm_eq (s1 s2 : State) :
  NoDup (Car.name <$> s1) -> Car.name <$> s1 = Car.name <$> s2 -> s1 ≡ₚ s2 ->
  s1 = s2.
Proof.
  intros Hnd Hnames Hperm. apply list_eq. intros i.
  destruct (s1 !! i) as [c1|] eqn:H1.
  - assert (Hin : c1 ∈ s2).
    { rewrite <- Hperm. apply list_elem_of_lookup. eauto. }
    apply list_elem_of_lookup in Hin as [j Hj].
    assert (Hi' : (Car.name <$> s1) !! i = Some (Car.name c1)).
    { by rewrite list_lookup_fmap, H1. }
    assert (Hj' : (Car.name <$> s1) !! j = Some (Car.name c1)).
    { by rewrite Hnames, list_lookup_fmap, Hj. }
    by rewrite (NoDup_lookup _ i j _ Hnd Hi' Hj').
  - symmetry. apply lookup_ge_None. apply lookup_ge_None in H1.
    apply (f_equal length) in Hnames. rewrite !length_fmap in Hnames. lia.
Qed.

Lemma shape_names (s1 s2 : State) :
  shape <$> s1 = shape <$> s2 -> Car.name <$> s1 = Car.name <$> s2.
Proof.
  intros H. apply (f_equal (fmap (fun t : string * Z * Direction => t.1.1))) in H.
  by rewrite <- !list_fmap_compose in H.
Qed.

(** C3, as the code has it.  States are tuples compared element by
    element, without any canonical order.  Within one run the order is
    that of the initial configuration: when its car names are distinct,
    two states reached from it that hold the same cars with the same
    placements are equal, and once one is in the set of seen boards the
    other is found there. *)
Theorem reachable_states_dedup (init s1 s2 : State) (boards_seen : gset State) :
  NoDup (Car.name <$> init) ->
  reachable init s1 -> reachable init s2 -> s1 ≡ₚ s2 ->
  s1 = s2 /\ s2 ∈ {[s1]} ∪ boards_seen.
Proof.
  intros Hnd [n1 H1] [n2 H2] Hperm.
  pose proof (shape_names _ _ (reach_in_shape _ _ _ H1)) as Hn1.
  pose proof (shape_names _ _ (reach_in_shape _ _ _ H2)) as Hn2.
  assert (s1 = s2) as ->.
  { apply same_names_perm_eq; [by rewrite Hn1 | congruence | done]. }
  split; [done|]. apply elem_of_union. left. by apply elem_of_singleton.
Qed.

Lemma reachable_states_dedup_witness :
  blocked_once = blocked_once /\ blocked_once ∈ ({[blocked_once]} ∪ ∅ : gset State).
Proof.
  apply (reachable_states_dedup blocked_once blocked_once blocked_once ∅).
  - apply (bool_decide_unpack _). vm_compute. exact I.
  - exists 0%nat. constructor.
  - exists 0%nat. constructor.
  - reflexivity.
Defined.

(** C3 as stated fails: the same two cars listed in the other order make
    a different state, which the set of seen boards does not contain. *)
Lemma swapped_states_differ :
  blocked_once ≡ₚ blocked_once_swapped /\
  blocked_once <> blocked_once_swapped /\
  blocked_once_swapped ∉ ({[blocked_once]} ∪ ∅ : gset State).
Proof.
  split; [apply perm_swap|]. split; [done|].
  apply (bool_decide_unpack _). vm_compute. exact I.
Qed.

(** ** C8: the move log *)

Lemma range_S (n : nat) :
  range (Z.of_nat (S n)) = 0 :: (Z.succ <$> range (Z.of_nat n)).
Proof.
  unfold range. rewrite !Nat2Z.id. simpl. f_equal.
  rewrite <- fmap_S_seq, <- !list_fmap_compose.
  apply list_fmap_ext. intros j k Hk. simpl. lia.
Qed.

Lemma steps_at_cons (s : State) (history : list State) (i : Z) :
  0 <= i -> steps_at (s :: history) (Z.succ i) = steps_at history i.
Proof.
  intros Hi. unfold steps_at.
  replace (Z.to_nat (Z.succ i)) with (S (Z.to_nat i)) by lia.
  replace (Z.to_nat (Z.succ i + 1)) with (S (Z.to_nat (i + 1))) by lia.
  done.
Qed.

Lemma print_moves_walk (history : list State) :
  print_moves history =
  LogInfo "Total number of steps: %d" (ArgInt (Z.of_nat (length history) - 1))
  :: walk history.
Proof.
  unfold print_moves. f_equal.
  induction history as [|s1 history IH]; [done|].
  destruct history as [|s2 rest]; [done|].
  replace (Z.of_nat (length (s1 :: s2 :: rest)) - 1)
    with (Z.of_nat (S (length rest))) by (simpl; lia).
  rewrite range_S. rewrite fmap_cons. simpl concat.
  change (walk (s1 :: s2 :: rest)) with (pair_steps s1 s2 ++ walk (s2 :: rest)).
  f_equal. rewrite <- IH.
  replace (Z.of_nat (length (s2 :: rest)) - 1)
    with (Z.of_nat (length rest)) by (simpl; lia).
  f_equal. rewrite <- list_fmap_compose. apply list_fmap_ext.
  intros k i Hi. simpl. apply steps_at_cons.
  apply list_elem_of_lookup_2, elem_of_range in Hi. lia.
Qed.

Lemma pair_steps_same (s : State) : pair_steps s s = [].
Proof.
  induction s as [|car s IH]; simpl; [done|]. by rewrite decide_True.
Qed.

Lemma pair_steps_insert (s : State) (i : nat) (car1 car2 : Car.t) :
  s !! i = Some car1 -> car1 <> car2 ->
  pair_steps s (<[i := car2]> s) = car_steps car1 car2.
Proof.
  revert i. induction s as [|car s IH]; intros i Hi Hne; [done|].
  destruct i as [|i]; simpl in *.
  - injection Hi as ->. rewrite decide_False by done.
    by rewrite pair_steps_same, app_nil_r.
  - rewrite decide_True by done. by apply IH.
Qed.

Lemma moved_car_steps (car1 car2 : Car.t) (d : heading) :
  moved car1 car2 d ->
  car1 <> car2 /\ car_steps car1 car2 = [step_record (Car.name car1, d)].
Proof.
  intros Hm. split.
  - intros ->. destruct d; simpl in Hm; lia.
  - unfold car_steps, step_record.
    destruct d; simpl in Hm; repeat case_decide; try lia; done.
Qed.

(** C8, as the code has it.  For every history in which each consecutive
    pair of states differs in exactly one car, whose row or column changed
    but not both, [print_moves] logs the total, the length of the history
    minus one, and then exactly one step per consecutive pair, with the
    name of the car and Up when its row decreased, Down when it increased,
    Left when its column decreased, Right when it increased. *)
Theorem print_moves_described (history : list State) (steps : list (string * heading)) :
  described history steps ->
  print_moves history =
    LogInfo "Total number of steps: %d" (ArgInt (Z.of_nat (length history) - 1))
    :: (step_record <$> steps) /\
  (history <> [] -> length history = S (length steps)).
Proof.
  intros Hd. rewrite print_moves_walk. split.
  - f_equal.
    induction Hd as [| s | s1 s2 rest n d steps Hmove Hd IH]; [done..|].
    destruct Hmove as (i & car1 & car2 & Hi & -> & <- & Hm).
    destruct (moved_car_steps _ _ _ Hm) as [Hne Hsteps].
    change (walk (s1 :: <[i:=car2]> s1 :: rest))
      with (pair_steps s1 (<[i:=car2]> s1) ++ walk (<[i:=car2]> s1 :: rest)).
    by rewrite (pair_steps_insert s1 i car1 car2 Hi Hne), Hsteps, IH.
  - induction Hd as [| s | s1 s2 rest n d steps Hmove Hd IH]; intros Hne;
      [done..|].
    simpl in *. rewrite IH; done.
Qed.

Lemma print_moves_described_witness :
  print_moves
    [blocked_once;
     [Car.mk "r" 2 2 2 HORIZONTAL; Car.mk "b" 0 4 2 VERTICAL];
     [Car.mk "r" 2 3 2 HORIZONTAL; Car.mk "b" 0 4 2 VERTICAL]] =
    LogInfo "Total number of steps: %d" (ArgInt (Z.of_nat 3 - 1))
    :: (step_record <$> [("b", Up); ("r", Rightward)]) /\
  ([blocked_once;
    [Car.mk "r" 2 2 2 HORIZONTAL; Car.mk "b" 0 4 2 VERTICAL];
    [Car.mk "r" 2 3 2 HORIZONTAL; Car.mk "b" 0 4 2 VERTICAL]] <> [] ->
   3%nat = 3%nat).
Proof.
  apply (print_moves_described
           [blocked_once;
            [Car.mk "r" 2 2 2 HORIZONTAL; Car.mk "b" 0 4 2 VERTICAL];
            [Car.mk "r" 2 3 2 HORIZONTAL; Car.mk "b" 0 4 2 VERTICAL]]
           [("b", Up); ("r", Rightward)]).
  apply described_cons.
  - exists 1%nat, (Car.mk "b" 1 4 2 VERTICAL), (Car.mk "b" 0 4 2 VERTICAL).
    simpl. repeat split; lia.
  - apply described_cons; [|apply described_one].
    exists 0%nat, (Car.mk "r" 2 2 2 HORIZONTAL), (Car.mk "r" 2 3 2 HORIZONTAL).
    simpl. repeat split; lia.
Defined.

(** C8 as stated fails: when the one car that differs changed both its row
    and its column, two steps are logged for the pair. *)
Lemma diagonal_two_steps :
  (exists (i : nat) car1 car2,
     [Car.mk "a" 1 1 2 HORIZONTAL] !! i = Some car1 /\
     [Car.mk "a" 0 0 2 HORIZONTAL] = <[i := car2]> [Car.mk "a" 1 1 2 HORIZONTAL] /\
     car1 <> car2 /\ shape car1 = shape car2) /\
  print_moves diagonal_history =
    [LogInfo "Total number of steps: %d" (ArgInt 1);
     LogInfo "%s-Up" (ArgStr "a"); LogInfo "%s-Left" (ArgStr "a")].
Proof.
  split; [|vm_compute; reflexivity].
  exists 0%nat, (Car.mk "a" 1 1 2 HORIZONTAL), (Car.mk "a" 0 0 2 HORIZONTAL).
  repeat split; done.
Qed.

(** ** C4: what is rejected before the search *)

Lemma read_car_valid (row : list string) (car : Car.t) :
  read_car row = Ok car -> valid_direction car.
Proof.
  unfold read_car. destruct (Car_make row) as [[[[[n a] b] s] d]|e]; [|done].
  simpl. intros H.
  assert (Hd : exists dir, (dir = HORIZONTAL \/ dir = VERTICAL) /\
            (do a' <- py_int a; do b' <- py_int b; do s' <- py_int s;
             Ok (Car.mk n a' b' s' dir)) = Ok car).
  { destruct (decide (d = "H")); [exists HORIZONTAL; split; [by left | done]|].
    destruct (decide (d = "V")); [exists VERTICAL; split; [by right | done]|].
    done. }
  destruct Hd as (dir & Hdir & Hcar).
  destruct (py_int a); [|done]. destruct (py_int b); [|done].
  destruct (py_int s); [|done]. simpl in Hcar. injection Hcar as <-. done.
Qed.

Lemma read_setup_valid (rows : list (list string)) (cars : State) :
  read_setup rows = Ok cars -> forall car, car ∈ cars -> valid_direction car.
Proof.
  unfold read_setup. revert cars.
  induction rows as [|row rows IH]; intros cars H car Hcar; simpl in H.
  - injection H as <-. by apply elem_of_nil in Hcar.
  - destruct (read_car row) as [c|e] eqn:Hc; [|done]. simpl in H.
    destruct (mapM read_car rows) as [cs|e]; [|done]. simpl in H.
    injection H as <-. apply elem_of_cons in Hcar as [->|Hcar].
    + by eapply read_car_valid.
    + by apply (IH cs).
Qed.

Lemma get_board_raises_iff (cars : State) (e : exn) :
  (forall car, car ∈ cars -> valid_direction car) ->
  get_board cars = Raise e <->
  e = IndexError /\
  exists car p, car ∈ cars /\ p ∈ footprint car /\ ~ indexable p.
Proof.
  intros Hv. pose proof (place_cars_Ok_iff empty_board cars empty_board_ok) as Hiff.
  fold (get_board cars) in Hiff. split.
  - intros He. split.
    { by apply (place_cars_Raise_valid empty_board cars e empty_board_ok Hv). }
    assert (Hn : ~ Forall (fun car => valid_direction car /\
                                      Forall indexable (footprint car)) cars).
    { intros H. apply Hiff in H as [b Hb]. congruence. }
    apply not_Forall_Exists in Hn; [|apply _].
    apply Exists_exists in Hn as (car & Hcar & Hn).
    assert (Hn' : ~ Forall indexable (footprint car)).
    { intros H. apply Hn. split; [by apply Hv | done]. }
    apply not_Forall_Exists in Hn'; [|apply _].
    apply Exists_exists in Hn' as (p & Hp & Hnp). by exists car, p.
  - intros (-> & car & p & Hcar & Hp & Hnp).
    assert (Hno : forall b, get_board cars <> Ok b).
    { intros b Hb. assert (H : exists b', get_board cars = Ok b') by eauto.
      apply Hiff in H. apply (proj1 (Forall_forall _ _) H) in Hcar as [_ Hall].
      by apply (proj1 (Forall_forall _ _) Hall) in Hp. }
    destruct (get_board cars) as [b|e] eqn:Hb; [by destruct (Hno b)|].
    f_equal.
    by apply (place_cars_Raise_valid empty_board cars e empty_board_ok Hv).
Qed.

(** C4, as the code has it.  The program fails before the search begins
    exactly when the reader raises (a row without five fields, a direction
    code other than H or V, a field that is not an integer) or when
    building the initial board indexes a row or column outside -6..5, an
    [IndexError].  Nothing else is checked: a configuration that is read
    and whose cells can all be indexed is searched as it is, whatever the
    names of its cars and whether or not they overlap. *)
Theorem main_fails_before_search (fuel : nat) (rows : list (list string)) :
  (forall e, main fuel rows = FailedBeforeSearch e <->
     read_setup rows = Raise e \/
     exists cars, read_setup rows = Ok cars /\ e = IndexError /\
       exists car p, car ∈ cars /\ p ∈ footprint car /\ ~ indexable p) /\
  (forall cars, read_setup rows = Ok cars ->
     (forall car p, car ∈ cars -> p ∈ footprint car -> indexable p) ->
     main fuel rows = Searched cars
       (match run fuel cars with
        | Some (log, exit) =>
            match get_board cars with
            | Ok board => Some (LogInfo initial_board_fmt (ArgBoard board) :: log, exit)
            | Raise _ => None
            end
        | None => None
        end)).
Proof.
  split.
  - intros e. unfold main.
    destruct (read_setup rows) as [cars|e0] eqn:Hread.
    + pose proof (read_setup_valid rows cars Hread) as Hv.
      pose proof (get_board_raises_iff cars e Hv) as Hiff.
      destruct (get_board cars) as [b|e1] eqn:Hb.
      * split; [done|]. intros [[=]|(cars' & [= <-] & He & Hex)].
        pose proof (proj2 Hiff (conj He Hex)). done.
      * split.
        -- intros [= ->]. right. exists cars. split; [done|]. by apply Hiff.
        -- intros [[=]|(cars' & [= <-] & He & Hex)].
           f_equal. pose proof (proj2 Hiff (conj He Hex)). congruence.
    + split; [intros [= ->]; by left|].
      intros [[= ->]|(cars & [=] & _)]. done.
  - intros cars Hread Hidx. unfold main. rewrite Hread.
    pose proof (read_setup_valid rows cars Hread) as Hv.
    destruct (get_board cars) as [b|e] eqn:Hb.
    + by destruct (run fuel cars) as [[log exit]|].
    + apply (get_board_raises_iff cars e Hv) in Hb as (_ & car & p & ? & ? & Hn).
      destruct Hn. by eapply Hidx.
Qed.

(** C4 as stated fails: two cars of the same name on overlapping cells,
    and a car at a negative row, are read, pass board construction and
    are searched. *)
Lemma malformed_is_searched :
  (exists cars r, main 100 rows_overlapping = Searched cars r /\
     ~ NoDup (Car.name <$> cars) /\ ~ footprints_disjoint cars) /\
  (exists cars r, main 100 rows_negative = Searched cars r /\
     ~ footprints_in_grid cars).
Proof.
  split.
  - eexists _, _. split; [vm_compute; reflexivity|]. split.
    + apply (bool_decide_unpack _). vm_compute. exact I.
    + intros H.
      apply (H 0%nat 1%nat (Car.mk "a" 0 0 2 HORIZONTAL) (Car.mk "a" 0 1 2 HORIZONTAL)
               ltac:(done) eq_refl eq_refl (0, 1)).
      * apply elem_of_footprint. simpl. lia.
      * apply elem_of_footprint. simpl. lia.
  - eexists _, _. split; [vm_compute; reflexivity|].
    intros H.
    destruct (H (Car.mk "a" (-1) 0 2 HORIZONTAL) ltac:(apply list_elem_of_singleton; done)
                (-1, 0)) as [Hr _].
    + apply elem_of_footprint. simpl. lia.
    + simpl in Hr. lia.
Qed.

(** * Further properties of the code *)

(** ** update_cars_tuple *)

(** X1. [update_cars_tuple] within range returns a tuple of the same
    length that holds the new car at the index and the old cars
    elsewhere; at an index past the end it raises [IndexError]. *)
Theorem update_cars_tuple_lookup (cars : State) (index : nat) (new_car : Car.t) :
  ((index < length cars)%nat ->
   exists s', update_cars_tuple cars index new_car = Ok s' /\
     length s' = length cars /\
     forall j : nat, s' !! j = if decide (j = index) then Some new_car else cars !! j) /\
  ((length cars <= index)%nat ->
   update_cars_tuple cars index new_car = Raise IndexError).
Proof.
  unfold update_cars_tuple. split; intros Hi.
  - rewrite decide_True by done. eexists. split; [done|].
    split; [by rewrite length_insert|].
    intros j. case_decide as Hj.
    + subst. by apply list_lookup_insert_eq.
    + by apply list_lookup_insert_ne.
  - rewrite decide_False by lia. done.
Qed.

(** ** get_board on any state *)

Lemma py_index_mod {A} (l : list A) (i : Z) (k : nat) :
  py_index l i = Ok k -> Z.of_nat k = i mod Z.of_nat (length l).
Proof.
  unfold py_index. repeat case_decide; intros [= <-].
  - rewrite Z.mod_small by done. lia.
  - apply (Z.mod_unique i _ (-1)); lia.
Qed.

Lemma board_set_wrap (b b' : Board) (q : Z * Z) (v : string) :
  board_ok b -> board_set b q.1 q.2 v = Ok b' ->
  board_ok b' /\
  forall p, in_grid p -> rd b' p = if decide (p = wrap q) then v else rd b p.
Proof.
  intros Hb Hset. pose proof Hb as [Hlen Hrows].
  unfold board_set, py_setitem in Hset.
  destruct (py_index b q.1) as [k|e] eqn:Hk; [|done]. simpl in Hset.
  pose proof (py_index_lt _ _ _ Hk) as Hklt.
  pose proof (py_index_mod _ _ _ Hk) as Hkm.
  destruct (board_ok_row b k Hb) as [row [Hrow Hrl]].
  { rewrite Hlen in Hklt. unfold BOARD_SIZE in Hklt. lia. }
  rewrite Hrow in Hset.
  destruct (py_index row q.2) as [k'|e] eqn:Hk'; [|done]. simpl in Hset.
  pose proof (py_index_lt _ _ _ Hk') as Hklt'.
  pose proof (py_index_mod _ _ _ Hk') as Hkm'.
  injection Hset as <-. split.
  - split; [by rewrite length_insert|].
    apply Forall_insert; [done|]. by rewrite length_insert.
  - intros p [Hpr Hpc]. unfold rd, wrap. destruct p as [pr pc]. simpl in *.
    rewrite Hlen in Hkm. rewrite Hrl in Hkm'.
    change (Z.of_nat (Z.to_nat BOARD_SIZE)) with BOARD_SIZE in Hkm.
    change (Z.of_nat 6) with BOARD_SIZE in Hkm'.
    destruct (decide (Z.to_nat pr = k)) as [<-|Hne].
    + rewrite list_lookup_insert_eq by done. simpl. rewrite Hrow. simpl.
      destruct (decide (Z.to_nat pc = k')) as [<-|Hne].
      * rewrite list_lookup_insert_eq by done.
        rewrite decide_True; [done|]. f_equal; lia.
      * rewrite list_lookup_insert_ne by done.
        rewrite decide_False; [done|]. intros [= _ H]. lia.
    + rewrite list_lookup_insert_ne by done.
      rewrite decide_False; [done|]. intros [= H _]. lia.
Qed.

Lemma write_cells_wrap (b b' : Board) (cells : list (Z * Z)) (v : string) :
  board_ok b -> write_cells b cells v = Ok b' ->
  board_ok b' /\
  forall p, in_grid p -> rd b' p = if decide (p ∈ wrap <$> cells) then v else rd b p.
Proof.
  revert b. induction cells as [|q cells IH]; intros b Hb Hw.
  - unfold write_cells in Hw. simpl in Hw. injection Hw as <-. split; [done|].
    intros p _. by rewrite decide_False by apply not_elem_of_nil.
  - unfold write_cells in Hw. simpl in Hw.
    destruct (board_set b q.1 q.2 v) as [b1|e] eqn:H1; [|done]. simpl in Hw.
    destruct (board_set_wrap b b1 q v Hb H1) as [Hb1 Hrd1].
    destruct (IH b1 Hb1 Hw) as [Hb' Hrd]. split; [done|].
    intros p Hp. rewrite (Hrd p Hp), (Hrd1 p Hp). rewrite fmap_cons.
    destruct (decide (p ∈ wrap <$> cells)) as [Hin|Hin].
    + rewrite decide_True; [done|]. apply elem_of_cons. by right.
    + destruct (decide (p = wrap q)) as [->|Hne].
      * rewrite decide_True; [done|]. apply elem_of_cons. by left.
      * rewrite decide_False; [done|]. intros [?|?]%elem_of_cons; done.
Qed.

Lemma place_cars_wrap (b b' : Board) (cars : State) :
  board_ok b -> foldM place_car b cars = Ok b' ->
  board_ok b' /\
  forall p, in_grid p -> rd b' p = drawn_label_from (rd b p) cars p.
Proof.
  revert b. induction cars as [|car cars IH]; intros b Hb H.
  - injection H as <-. by split.
  - simpl in H. destruct (place_car b car) as [b1|e] eqn:H1; [|done].
    simpl in H.
    assert (Hv : valid_direction car).
    { unfold place_car in H1. unfold valid_direction.
      destruct (Car.direction car); [by left | by right | done]. }
    rewrite (place_car_write b car Hv) in H1.
    destruct (write_cells_wrap b b1 _ _ Hb H1) as [Hb1 Hrd1].
    destruct (IH b1 Hb1 H) as [Hb' Hrd]. split; [done|].
    intros p Hp. rewrite (Hrd p Hp), (Hrd1 p Hp). done.
Qed.

Lemma drawn_label_from_free (acc : string) (s : State) (p : Z * Z) :
  (forall car, car ∈ s -> p ∉ drawn car) -> drawn_label_from acc s p = acc.
Proof.
  revert acc. induction s as [|car s IH]; intros acc Hfree; [done|].
  unfold drawn_label_from. simpl. rewrite decide_False.
  - apply IH. intros c Hc. apply Hfree. apply elem_of_cons. by right.
  - apply Hfree. apply elem_of_cons. by left.
Qed.

Lemma drawn_label_from_last (acc : string) (s : State) (p : Z * Z) (i : nat)
    (car : Car.t) :
  s !! i = Some car -> p ∈ drawn car ->
  (forall (j : nat) c', (i < j)%nat -> s !! j = Some c' -> p ∉ drawn c') ->
  drawn_label_from acc s p = Car.name car.
Proof.
  revert acc i. induction s as [|c0 s IH]; intros acc i Hi Hp Hlater; [done|].
  unfold drawn_label_from. simpl. destruct i as [|i]; simpl in Hi.
  - injection Hi as ->. rewrite decide_True by done.
    apply drawn_label_from_free. intros c' Hc'.
    apply list_elem_of_lookup in Hc' as [j Hj].
    apply (Hlater (S j)); [lia | done].
  - apply (IH _ i); [done | done |].
    intros j c' Hij Hj. apply (Hlater (S j)); [lia | done].
Qed.

Lemma wrap_in_grid (q : Z * Z) : in_grid (wrap q).
Proof.
  unfold in_grid, wrap, BOARD_SIZE. simpl.
  pose proof (Z.mod_pos_bound q.1 6). pose proof (Z.mod_pos_bound q.2 6). lia.
Qed.

(** X2. [get_board] returns a board exactly when every car has a valid
    direction and every cell of every footprint has its row and column in
    -6..5; the board it returns is always 6 by 6. *)
Theorem get_board_returns (cars : State) :
  ((exists b, get_board cars = Ok b) <->
     Forall (fun car => valid_direction car /\ Forall indexable (footprint car)) cars) /\
  (forall b, get_board cars = Ok b ->
     length b = 6%nat /\ Forall (fun row => length row = 6%nat) b).
Proof.
  split.
  - apply (place_cars_Ok_iff empty_board cars empty_board_ok).
  - intros b Hb.
    by destruct (place_cars_wrap empty_board b cars empty_board_ok Hb) as [? _].
Qed.

(** X3. On the board [get_board] returns, a grid cell that no car draws
    is empty, and a cell some car draws holds the name of the last car in
    tuple order that draws it, where a car draws its footprint cells with
    negative rows and columns counted from the end of the grid: a car at
    row -1 is drawn on row 5. *)
Theorem get_board_wraps (cars : State) (b : Board) :
  get_board cars = Ok b ->
  (forall p, in_grid p -> (forall car, car ∈ cars -> p ∉ drawn car) ->
     board_get b p.1 p.2 = Ok EMPTY_CELL) /\
  (forall (i : nat) car p,
     cars !! i = Some car -> p ∈ drawn car ->
     (forall (j : nat) car', (i < j)%nat -> cars !! j = Some car' -> p ∉ drawn car') ->
     board_get b p.1 p.2 = Ok (Car.name car)).
Proof.
  intros Hb.
  destruct (place_cars_wrap empty_board b cars empty_board_ok Hb) as [Hok Hrd].
  split.
  - intros p Hp Hfree. rewrite (board_get_in_grid b p Hok Hp), (Hrd p Hp).
    by rewrite drawn_label_from_free, rd_empty_board.
  - intros i car p Hi Hp Hlast.
    assert (Hin : in_grid p).
    { unfold drawn in Hp. apply list_elem_of_fmap in Hp as [q [-> _]].
      apply wrap_in_grid. }
    rewrite (board_get_in_grid b p Hok Hin), (Hrd p Hin).
    by rewrite (drawn_label_from_last _ _ _ i car).
Qed.

Lemma get_board_wraps_witness :
  (forall p, in_grid p -> (forall car, car ∈ negative_row -> p ∉ drawn car) ->
     board_get negative_row_board p.1 p.2 = Ok EMPTY_CELL) /\
  (forall (i : nat) car p,
     negative_row !! i = Some car -> p ∈ drawn car ->
     (forall (j : nat) car', (i < j)%nat -> negative_row !! j = Some car' ->
        p ∉ drawn car') ->
     board_get negative_row_board p.1 p.2 = Ok (Car.name car)).
Proof.
  apply (get_board_wraps negative_row negative_row_board).
  vm_compute. reflexivity.
Defined.

(** ** possible_moves on any state *)

Lemma slides_moved (b : Board) (car car' : Car.t) :
  slides b car car' ->
  car' <> car /\
  (car' = move_right car \/ car' = move_left car \/
   car' = move_down car \/ car' = move_up car).
Proof.
  intros [(_ & _ & _ & ->) | [(_ & _ & _ & ->) | [(_ & _ & _ & ->) | (_ & _ & _ & ->)]]].
  all: split; [destruct car; intros [=]; lia | tauto].
Qed.

(** X4. Whatever the state, each state the generator yields is its input
    with exactly one car replaced by that car moved one cell right, left,
    down or up; in particular it is never the input itself. *)
Theorem possible_moves_changes_one_car (s s' : State) :
  s' ∈ (possible_moves s).1 ->
  s' <> s /\
  exists (i : nat) car car',
    s !! i = Some car /\ s' = <[i := car']> s /\
    (car' = move_right car \/ car' = move_left car \/
     car' = move_down car \/ car' = move_up car) /\
    forall j : nat, j <> i -> s' !! j = s !! j.
Proof.
  intros (b & i & car & car' & _ & Hi & Hsl & ->)%possible_moves_sound.
  destruct (slides_moved b car car' Hsl) as [Hne Hcases].
  assert (Hlt : (i < length s)%nat) by (by apply lookup_lt_Some in Hi).
  split.
  - intros Heq. apply (f_equal (fun l => l !! i)) in Heq.
    rewrite list_lookup_insert_eq in Heq by done. congruence.
  - exists i, car, car'. split; [done|]. split; [done|]. split; [done|].
    intros j Hj. by apply list_lookup_insert_ne.
Qed.

Lemma possible_moves_changes_one_car_witness :
  [Car.mk "r" 2 2 2 HORIZONTAL; Car.mk "b" 0 4 2 VERTICAL] <> blocked_once /\
  exists (i : nat) car car',
    blocked_once !! i = Some car /\
    [Car.mk "r" 2 2 2 HORIZONTAL; Car.mk "b" 0 4 2 VERTICAL] =
      <[i := car']> blocked_once /\
    (car' = move_right car \/ car' = move_left car \/
     car' = move_down car \/ car' = move_up car) /\
    forall j : nat, j <> i ->
      [Car.mk "r" 2 2 2 HORIZONTAL; Car.mk "b" 0 4 2 VERTICAL] !! j = blocked_once !! j.
Proof.
  apply (possible_moves_changes_one_car blocked_once).
  apply (bool_decide_unpack _). vm_compute. exact I.
Defined.

(** X5. The generator yields at most two states per car, whatever the
    state and whether or not it ends by raising. *)
Theorem possible_moves_at_most_two_per_car (s : State) :
  (length (possible_moves s).1 <= 2 * length s)%nat.
Proof. apply possible_moves_length. Qed.

(** X6. The generator never moves a car off the grid: from a state whose
    cars lie on the grid, overlapping or not and whatever their names,
    every yielded state has its cars on the grid. *)
Theorem possible_moves_stay_on_grid (s s' : State) :
  Forall car_ok s -> s' ∈ (possible_moves s).1 -> Forall car_ok s'.
Proof. intros Hs Hstep. by apply (step_car_ok s s'). Qed.

Lemma possible_moves_stay_on_grid_witness : Forall car_ok blank_overrun.
Proof.
  apply (possible_moves_stay_on_grid blank_named).
  - repeat constructor; unfold BOARD_SIZE; simpl; lia.
  - apply (bool_decide_unpack _). vm_compute. exact I.
Defined.

(** ** What no sequence of moves changes *)

Lemma slides_track (b : Board) (car car' : Car.t) :
  slides b car car' -> track car' = track car.
Proof.
  intros [(Hd & _ & _ & ->) | [(Hd & _ & _ & ->) | [(Hd & _ & _ & ->) | (Hd & _ & _ & ->)]]];
    unfold track; simpl; by rewrite Hd.
Qed.

Lemma step_track (s s' : State) : step s s' -> track <$> s' = track <$> s.
Proof.
  intros (b & i & car & car' & _ & Hi & Hsl & ->)%possible_moves_sound.
  rewrite list_fmap_insert, (slides_track _ _ _ Hsl).
  apply list_insert_id. by rewrite list_lookup_fmap, Hi.
Qed.

Lemma reach_in_track (init s : State) (n : nat) :
  reach_in init n s -> track <$> s = track <$> init.
Proof.
  induction 1 as [|n s s' _ IH Hstep]; [done|].
  by rewrite (step_track _ _ Hstep).
Qed.

(** X7. Cars move along their own axis only: in every state reached from
    an initial configuration, a horizontal car is in the row it started
    in and a vertical car in the column it started in. *)
Theorem reachable_keeps_axis (init s : State) :
  reachable init s ->
  forall (i : nat) car car', init !! i = Some car -> s !! i = Some car' ->
    (Car.direction car = HORIZONTAL -> Car.x car' = Car.x car) /\
    (Car.direction car = VERTICAL -> Car.y car' = Car.y car).
Proof.
  intros [n Hs] i car car' Hi Hi'.
  pose proof (reach_in_track _ _ _ Hs) as Ht.
  apply (f_equal (fun l => l !! i)) in Ht.
  rewrite !list_lookup_fmap, Hi, Hi' in Ht. simpl in Ht.
  unfold track in Ht. injection Ht as Hn Hsz Hd Hax. rewrite Hd in Hax.
  split; intros H; rewrite H in Hax; done.
Qed.

Lemma reachable_keeps_axis_witness :
  (Car.direction (Car.mk "b" 1 4 2 VERTICAL) = HORIZONTAL ->
   Car.x (Car.mk "b" 0 4 2 VERTICAL) = Car.x (Car.mk "b" 1 4 2 VERTICAL)) /\
  (Car.direction (Car.mk "b" 1 4 2 VERTICAL) = VERTICAL ->
   Car.y (Car.mk "b" 0 4 2 VERTICAL) = Car.y (Car.mk "b" 1 4 2 VERTICAL)).
Proof.
  apply (reachable_keeps_axis blocked_once
           [Car.mk "r" 2 2 2 HORIZONTAL; Car.mk "b" 0 4 2 VERTICAL]) with (i := 1%nat).
  - exists 1%nat. apply (reach_S _ _ blocked_once); [constructor|].
    decide_by_compute.
  - reflexivity.
  - reflexivity.
Defined.

(** X8. A configuration can only be solved if it lists a horizontal car
    named "r" of size 2 in row 2: the target is compared by value and no
    move changes a car's name, size, direction or, for a horizontal car,
    its row. *)
Theorem solvable_has_target (init g : State) :
  reachable init g -> is_goal g ->
  exists car, car ∈ init /\ Car.name car = "r" /\ Car.x car = 2 /\
    Car.size car = 2 /\ Car.direction car = HORIZONTAL.
Proof.
  intros [n Hg] Hgoal.
  assert (Hin : track ENDPOINT ∈ track <$> init).
  { rewrite <- (reach_in_track _ _ _ Hg). apply list_elem_of_fmap.
    by exists ENDPOINT. }
  apply list_elem_of_fmap in Hin as (car & Ht & Hcar).
  exists car. split; [done|]. unfold track in Ht. simpl in Ht.
  injection Ht as Hn Hs Hd Hx. rewrite <- Hd in Hx. done.
Qed.

Lemma solvable_has_target_witness :
  exists car, car ∈ blocked_once /\ Car.name car = "r" /\ Car.x car = 2 /\
    Car.size car = 2 /\ Car.direction car = HORIZONTAL.
Proof.
  apply (solvable_has_target blocked_once [ENDPOINT; Car.mk "b" 0 4 2 VERTICAL]).
  - exists 3%nat.
    apply (reach_S _ _ [Car.mk "r" 2 3 2 HORIZONTAL; Car.mk "b" 0 4 2 VERTICAL]).
    + apply (reach_S _ _ [Car.mk "r" 2 2 2 HORIZONTAL; Car.mk "b" 0 4 2 VERTICAL]).
      * apply (reach_S _ _ blocked_once); [constructor|]. decide_by_compute.
      * decide_by_compute.
    + decide_by_compute.
  - decide_by_compute.
Defined.

(** ** Moves can be undone *)

Lemma vacated_free (s : State) (i : nat) (car car' : Car.t) (q : Z * Z) :
  footprints_disjoint s -> s !! i = Some car ->
  q ∈ footprint car -> q ∉ footprint car' -> free (<[i := car']> s) q.
Proof.
  intros Hdis Hi Hq Hq' c [j Hj]%list_elem_of_lookup.
  apply list_lookup_insert_Some in Hj as [(-> & -> & _) | (Hne & Hj)]; [done|].
  by apply (Hdis i j car c Hne Hi Hj q).
Qed.

Lemma slides_back (s : State) (b b' : Board) (i : nat) (car car' : Car.t) :
  car_ok car -> footprints_disjoint s -> s !! i = Some car ->
  slides b car car' ->
  (forall p, in_grid p -> board_get b' p.1 p.2 = Ok (label (<[i := car']> s) p)) ->
  slides b' car' car.
Proof.
  intros (Hsz & Hx & Hy & Hdir) Hdis Hi Hsl Hlab.
  assert (Hempty : forall q, in_grid q -> q ∈ footprint car -> q ∉ footprint car' ->
                     board_get b' q.1 q.2 = Ok EMPTY_CELL).
  { intros q Hq Hin Hout. rewrite (Hlab q Hq). unfold label.
    rewrite label_from_free; [done|]. by apply (vacated_free s i car). }
  unfold slides. unfold BOARD_SIZE in *.
  destruct Hsl as [(Hd & Hlt & _ & ->) | [(Hd & Hlt & _ & ->) |
                  [(Hd & Hlt & _ & ->) | (Hd & Hlt & _ & ->)]]];
    rewrite Hd in Hdir.
  - right; left. simpl. split; [done|]. split; [lia|]. split.
    + apply (Hempty (Car.x car, Car.y car + 1 - 1)).
      * unfold in_grid, BOARD_SIZE. simpl. lia.
      * apply elem_of_footprint. rewrite Hd. simpl. lia.
      * rewrite elem_of_footprint. simpl. rewrite Hd. lia.
    + unfold move_left. simpl. destruct car. simpl. f_equal. lia.
  - left. simpl. split; [done|]. split; [lia|]. split.
    + apply (Hempty (Car.x car, Car.y car - 1 + Car.size car)).
      * unfold in_grid, BOARD_SIZE. simpl. lia.
      * apply elem_of_footprint. rewrite Hd. simpl. lia.
      * rewrite elem_of_footprint. simpl. rewrite Hd. lia.
    + unfold move_right. simpl. destruct car. simpl. f_equal. lia.
  - right; right; right. simpl. split; [done|]. split; [lia|]. split.
    + apply (Hempty (Car.x car + 1 - 1, Car.y car)).
      * unfold in_grid, BOARD_SIZE. simpl. lia.
      * apply elem_of_footprint. rewrite Hd. simpl. lia.
      * rewrite elem_of_footprint. simpl. rewrite Hd. lia.
    + unfold move_up. simpl. destruct car. simpl. f_equal. lia.
  - right; right; left. simpl. split; [done|]. split; [lia|]. split.
    + apply (Hempty (Car.x car - 1 + Car.size car, Car.y car)).
      * unfold in_grid, BOARD_SIZE. simpl. lia.
      * apply elem_of_footprint. rewrite Hd. simpl. lia.
      * rewrite elem_of_footprint. simpl. rewrite Hd. lia.
    + unfold move_down. simpl. destruct car. simpl. f_equal. lia.
Qed.

(** X9. Moves can be undone: from a state whose cars lie on the grid and
    do not overlap, every state the generator yields has the input state
    among the states the generator yields for it. *)
Theorem moves_reversible (s s' : State) :
  Forall car_ok s -> footprints_disjoint s ->
  s' ∈ (possible_moves s).1 -> s ∈ (possible_moves s').1.
Proof.
  intros Hs Hdis Hstep.
  pose proof (step_car_ok s s' Hs Hstep) as Hs'.
  apply possible_moves_sound in Hstep as (b & i & car & car' & _ & Hi & Hsl & ->).
  destruct (get_board_ok _ Hs') as (b' & Hget' & _ & Hlab).
  destruct (possible_moves_complete _ Hs') as (b'' & Hget'' & _ & _ & Hiff).
  rewrite Hget' in Hget''. injection Hget'' as <-.
  apply Hiff. exists i, car', car.
  assert (Hlt : (i < length s)%nat) by (by apply lookup_lt_Some in Hi).
  split; [by apply list_lookup_insert_eq|]. split.
  - apply (slides_back s b b' i car car'); try done.
    by apply (Forall_lookup_1 _ _ _ _ Hs Hi).
  - rewrite list_insert_insert_eq. symmetry. by apply list_insert_id.
Qed.

Lemma moves_reversible_witness :
  blocked_once ∈
    (possible_moves [Car.mk "r" 2 2 2 HORIZONTAL; Car.mk "b" 0 4 2 VERTICAL]).1.
Proof.
  apply (moves_reversible blocked_once).
  - exact blocked_once_ok.
  - two_cars_disjoint.
  - apply (bool_decide_unpack _). vm_compute. exact I.
Defined.

(** ** The generator yields no state twice *)

Lemma insert_differ (s : State) (i : nat) (c1 c2 : Car.t) :
  (i < length s)%nat -> c1 <> c2 -> <[i := c1]> s <> <[i := c2]> s.
Proof.
  intros Hi Hne Heq. apply (f_equal (fun l => l !! i)) in Heq.
  rewrite !list_lookup_insert_eq in Heq by done. congruence.
Qed.

Lemma car_moves_NoDup (b : Board) (s : State) (i : nat) (car : Car.t) :
  NoDup (car_moves b s i car).1.
Proof.
  unfold car_moves, update_cars_tuple.
  destruct (decide (i < length s)%nat) as [Hi|Hi].
  - destruct (Car.direction car).
    + destruct (py_and _ _) as [[]|]; simpl; [| |apply NoDup_nil_2].
      * destruct (py_and _ _) as [[]|]; simpl;
          [|apply NoDup_singleton..].
        apply NoDup_cons. split; [|apply NoDup_singleton].
        intros Hin%list_elem_of_singleton. revert Hin.
        apply insert_differ; [done|]. intros [=]. lia.
      * destruct (py_and _ _) as [[]|]; simpl;
          [apply NoDup_singleton | apply NoDup_nil_2..].
    + destruct (py_and _ _) as [[]|]; simpl; [| |apply NoDup_nil_2].
      * destruct (py_and _ _) as [[]|]; simpl;
          [|apply NoDup_singleton..].
        apply NoDup_cons. split; [|apply NoDup_singleton].
        intros Hin%list_elem_of_singleton. revert Hin.
        apply insert_differ; [done|]. intros [=]. lia.
      * destruct (py_and _ _) as [[]|]; simpl;
          [apply NoDup_singleton | apply NoDup_nil_2..].
    + apply NoDup_nil_2.
  - destruct (Car.direction car); [| |apply NoDup_nil_2].
    all: destruct (py_and _ _) as [[]|]; simpl; [apply NoDup_nil_2| |apply NoDup_nil_2].
    all: destruct (py_and _ _) as [[]|]; simpl; apply NoDup_nil_2.
Qed.

Lemma moves_from_NoDup (b : Board) (s : State) (i : nat) (rest : list Car.t) :
  (forall (j : nat) car, rest !! j = Some car -> s !! (i + j)%nat = Some car) ->
  NoDup (moves_from b s i rest).1.
Proof.
  revert i. induction rest as [|car rest IH]; intros i Hrest; simpl.
  - apply NoDup_nil_2.
  - assert (Hi : s !! i = Some car).
    { specialize (Hrest O car eq_refl). by rewrite Nat.add_0_r in Hrest. }
    assert (Hlater : NoDup (moves_from b s (S i) rest).1).
    { apply IH. intros j c Hj. specialize (Hrest (S j) c Hj).
      by replace (S i + j)%nat with (i + S j)%nat by lia. }
    pose proof (car_moves_NoDup b s i car) as Hfirst.
    destruct (car_moves b s i car) as [l [e|]] eqn:Hcm; simpl; [done|].
    apply NoDup_app. split; [done|]. split; [|done].
    intros x Hx Hx'.
    assert (Hx1 : x ∈ (car_moves b s i car).1) by (by rewrite Hcm).
    apply car_moves_sound in Hx1 as [Hlt (car' & Hsl & ->)].
    destruct (slides_moved _ _ _ Hsl) as [Hne _].
    apply moves_from_sound in Hx' as (j & c & Hj & Hx').
    apply car_moves_sound in Hx' as [Hlt' (c' & _ & Heq)].
    apply (f_equal (fun l => l !! i)) in Heq.
    rewrite list_lookup_insert_eq in Heq by done.
    rewrite list_lookup_insert_ne in Heq by lia. congruence.
Qed.

(** X10. The generator never yields the same state twice, whatever the
    state. *)
Theorem possible_moves_NoDup (s : State) : NoDup (possible_moves s).1.
Proof.
  unfold possible_moves. destruct (get_board s) as [b|e]; [|apply NoDup_nil_2].
  apply moves_from_NoDup. intros j car Hj. done.
Qed.

(** ** The log of a solved run *)








(** X12. When the board of the initial state cannot be built, [run]
    raises the error of [get_board]; if the state holds the target it
    has logged "Total number of steps: 0" before raising, otherwise it
    has logged nothing. *)
Theorem run_board_error (fuel : nat) (init : State) (e : exn) :
  get_board init = Raise e ->
  run (S fuel) init =
    Some (if decide (ENDPOINT ∈ init)
          then [LogInfo "Total number of steps: %d" (ArgInt 0)]
          else [],
          Raise e).
Proof.
  intros Hb. unfold run, appendleft. simpl. unfold pop. simpl.
  rewrite decide_False by apply not_elem_of_empty.
  case_decide.
  - unfold solution_found. simpl. by rewrite Hb.
  - unfold possible_moves. by rewrite Hb.
Qed.

Lemma run_board_error_witness :
  run 1 off_board =
    Some (if decide (ENDPOINT ∈ off_board)
          then [LogInfo "Total number of steps: %d" (ArgInt 0)]
          else [],
          Raise IndexError).
Proof.
  apply (run_board_error 0 off_board IndexError). vm_compute. reflexivity.
Defined.

(** ** read_setup *)

(** X14. [read_setup] stops at the first row it cannot read and raises
    the error of that row: the rows after it are not looked at. *)
Theorem read_setup_first_error (good : list (list string)) (bad : list string)
    (rest : list (list string)) (cars : State) (e : exn) :
  read_setup good = Ok cars -> read_car bad = Raise e ->
  read_setup (good ++ bad :: rest) = Raise e.
Proof.
  unfold read_setup. revert cars.
  induction good as [|row good IH]; intros cars Hgood Hbad; simpl.
  - by rewrite Hbad.
  - simpl in Hgood. destruct (read_car row) as [car|]; [|done]. simpl in *.
    destruct (mapM read_car good) as [cs|] eqn:Hcs; [|done].
    by rewrite (IH cs eq_refl Hbad).
Qed.

Lemma read_setup_first_error_witness :
  read_setup (rows_good ++ row_bad_letter :: rows_short) = Raise ValueError.
Proof.
  apply (read_setup_first_error rows_good row_bad_letter rows_short
           [Car.mk "a" 0 0 2 HORIZONTAL] ValueError).
  - vm_compute. reflexivity.
  - vm_compute. reflexivity.
Defined.

(** ** main *)



(** ** The queue *)

(** X17. The deque is used as a first-in first-out queue: [extendleft]
    puts the new entries behind all the waiting ones, in the order they
    were yielded, and the loop of [run], which pops from the right, gives
    the result of the same loop over a list that is read from its head
    and extended at its end. *)
Theorem run_queue_is_fifo (fuel : nat) (boards_seen : gset State)
    (queue : deque (State * list State)) (items : list (State * list State)) :
  reverse (extendleft items queue) = reverse queue ++ items /\
  run_loop fuel boards_seen queue = bfs fuel boards_seen (reverse queue).
Proof.
  split; [|apply run_loop_bfs].
  by rewrite extendleft_reverse, reverse_app, reverse_involutive.
Qed.

(** ** Termination on every input *)

Lemma elem_of_travel (c size k : Z) :
  k ∈ travel c size <-> Z.min c 0 <= k <= Z.max c (BOARD_SIZE - size).
Proof.
  unfold travel. rewrite list_elem_of_fmap. split.
  - intros (j & -> & Hj). apply elem_of_range in Hj. lia.
  - intros Hk. exists (k - Z.min c 0). split; [lia|]. apply elem_of_range. lia.
Qed.

Lemma car_travels_self (car : Car.t) : car ∈ car_travels car.
Proof.
  unfold car_travels. destruct (Car.direction car) eqn:Hd.
  - apply list_elem_of_fmap. exists (Car.y car).
    split; [destruct car; simpl in *; by rewrite Hd | apply elem_of_travel; lia].
  - apply list_elem_of_fmap. exists (Car.x car).
    split; [destruct car; simpl in *; by rewrite Hd | apply elem_of_travel; lia].
  - by apply list_elem_of_singleton.
Qed.

Lemma car_travels_slides (b : Board) (car0 car car' : Car.t) :
  car ∈ car_travels car0 -> slides b car car' -> car' ∈ car_travels car0.
Proof.
  unfold car_travels. intros Hin Hsl.
  destruct (Car.direction car0) eqn:Hd0.
  - apply list_elem_of_fmap in Hin as (y & -> & Hy). apply elem_of_travel in Hy.
    unfold slides in Hsl. simpl in Hsl.
    destruct Hsl as [(_ & Hlt & _ & ->) | [(_ & Hlt & _ & ->) | [([=] & _) | ([=] & _)]]].
    + apply list_elem_of_fmap. exists (y + 1). split; [done|].
      apply elem_of_travel. unfold BOARD_SIZE in *. lia.
    + apply list_elem_of_fmap. exists (y - 1). split; [done|].
      apply elem_of_travel. unfold BOARD_SIZE in *. lia.
  - apply list_elem_of_fmap in Hin as (x & -> & Hx). apply elem_of_travel in Hx.
    unfold slides in Hsl. simpl in Hsl.
    destruct Hsl as [([=] & _) | [([=] & _) | [(_ & Hlt & _ & ->) | (_ & Hlt & _ & ->)]]].
    + apply list_elem_of_fmap. exists (x + 1). split; [done|].
      apply elem_of_travel. unfold BOARD_SIZE in *. lia.
    + apply list_elem_of_fmap. exists (x - 1). split; [done|].
      apply elem_of_travel. unfold BOARD_SIZE in *. lia.
  - apply list_elem_of_singleton in Hin as ->.
    unfold slides in Hsl. rewrite Hd0 in Hsl.
    by destruct Hsl as [([=] & _) | [([=] & _) | [([=] & _) | ([=] & _)]]].
Qed.

Lemma travels_complete (init s : State) :
  Forall2 (fun car0 car => car ∈ car_travels car0) init s -> s ∈ travels init.
Proof.
  induction 1 as [|car0 car init s Hcar _ IH]; simpl.
  - by apply list_elem_of_singleton.
  - apply list_elem_of_bind. exists car. split; [|done].
    apply list_elem_of_bind. exists s. split; [|done].
    by apply list_elem_of_singleton.
Qed.

Lemma travels_step (init s s' : State) :
  Forall2 (fun car0 car => car ∈ car_travels car0) init s -> step s s' ->
  Forall2 (fun car0 car => car ∈ car_travels car0) init s'.
Proof.
  intros Hs (b & i & car & car' & _ & Hi & Hsl & ->)%possible_moves_sound.
  destruct (Forall2_lookup_r _ _ _ _ _ Hs Hi) as (car0 & Hi0 & Hin).
  rewrite <- (list_insert_id init i car0 Hi0).
  apply Forall2_insert; [done|]. by eapply car_travels_slides.
Qed.

Lemma search_measure_expand (U : gset State) (K : nat) (seen : gset State)
    (v : State) (fq : list (State * list State)) (moves h' : list State) :
  v ∈ U -> v ∉ seen -> (length moves <= K)%nat ->
  (search_measure U K ({[v]} ∪ seen) (fq ++ ((fun move => (move, h')) <$> moves))
   <= search_measure U K seen fq)%nat.
Proof.
  intros HU Hv Hlen. unfold search_measure.
  rewrite length_app, length_fmap.
  assert (Hlt : (size (U ∖ ({[v]} ∪ seen)) < size (U ∖ seen))%nat).
  { apply subset_size. set_solver. }
  nia.
Qed.

Lemma bfs_terminates (init : State) (fuel : nat) :
  forall (seen : gset State) (fq : list (State * list State)),
    (forall v h, (v, h) ∈ fq ->
       Forall2 (fun car0 car => car ∈ car_travels car0) init v) ->
    (search_measure (list_to_set (travels init)) (2 * length init) seen fq < fuel)%nat ->
    exists r, bfs fuel seen fq = Some r.
Proof.
  induction fuel as [|fuel IH]; intros seen fq Hfq Hfuel; [lia|].
  destruct fq as [|[v h] fq]; simpl; [by eexists|].
  assert (Hv : Forall2 (fun car0 car => car ∈ car_travels car0) init v).
  { apply (Hfq v h). apply elem_of_cons. by left. }
  assert (Hrest : forall v' h', (v', h') ∈ fq ->
                    Forall2 (fun car0 car => car ∈ car_travels car0) init v').
  { intros v' h' Hin. apply (Hfq v' h'). apply elem_of_cons. by right. }
  case_decide as Hseen.
  { apply IH; [done|]. unfold search_measure in *. simpl in Hfuel. lia. }
  case_decide as Hgoal; [by eexists|].
  destruct (possible_moves v) as [moves [e|]] eqn:Hmoves; [by eexists|].
  apply IH.
  - intros v' h' [Hin|Hin]%elem_of_app; [by apply (Hrest v' h')|].
    apply list_elem_of_fmap in Hin as (m & [= -> ->] & Hm).
    apply (travels_step init v); [done|]. unfold step. by rewrite Hmoves.
  - assert (Hlen : (length moves <= 2 * length init)%nat).
    { pose proof (possible_moves_length v) as Hl. rewrite Hmoves in Hl.
      simpl in Hl. rewrite (Forall2_length _ _ _ Hv). done. }
    assert (HU : v ∈ (list_to_set (travels init) : gset State)).
    { apply elem_of_list_to_set. by apply travels_complete. }
    pose proof (search_measure_expand _ _ seen v fq moves (h ++ [v]) HU Hseen Hlen).
    unfold search_measure in *. simpl in Hfuel. lia.
Qed.

(** X18. [run] terminates on every input, well formed or not: given
    enough fuel it returns or raises, because each car can only be moved
    along its axis between its starting position and the grid. *)
Theorem run_terminates (init : State) :
  exists fuel0, forall fuel, (fuel0 <= fuel)%nat ->
    exists r, run fuel init = Some r.
Proof.
  exists (size (list_to_set (travels init) : gset State) * (2 * length init) + 2)%nat.
  intros fuel Hfuel. unfold run. rewrite run_loop_bfs.
  apply (bfs_terminates init).
  - intros v h [= -> ->]%list_elem_of_singleton.
    apply Forall2_same_length_lookup_2; [done|].
    intros i c0 c Hi0 Hi. rewrite Hi0 in Hi. injection Hi as <-.
    apply car_travels_self.
  - unfold search_measure, appendleft. simpl.
    assert (size ((list_to_set (travels init) : gset State) ∖ ∅)
            <= size (list_to_set (travels init) : gset State))%nat
      by (apply subseteq_size; set_solver).
    nia.
Qed.

(** ** The solution repeats no state *)

Lemma path_to_prefix (init : State) (h : list State) (v s : State) (k : nat) :
  path_to init h v -> h !! k = Some s -> reach_in init k s.
Proof.
  induction 1 as [|h u v Hp IH Hstep]; intros Hk; [done|].
  destruct (decide (k < length h)%nat) as [Hlt|Hge].
  - rewrite lookup_app_l in Hk by done. by apply IH.
  - rewrite lookup_app_r in Hk by lia.
    destruct (k - length h)%nat as [|n] eqn:Hn; [|done].
    injection Hk as <-. replace k with (length h) by lia.
    by apply path_to_reach.
Qed.

Lemma path_to_suffix (init : State) (h : list State) (v s : State) (j m : nat) :
  path_to init h v -> h !! j = Some s -> reach_in init m s ->
  reach_in init (m + (length h - j)) v.
Proof.
  induction 1 as [|h u v Hp IH Hstep]; intros Hj Hm; [done|].
  rewrite length_app. simpl.
  destruct (decide (j < length h)%nat) as [Hlt|Hge].
  - rewrite lookup_app_l in Hj by done.
    replace (m + (length h + 1 - j))%nat with (S (m + (length h - j))) by lia.
    apply (reach_S _ _ u); [by apply IH | done].
  - rewrite lookup_app_r in Hj by lia.
    destruct (j - length h)%nat as [|n] eqn:Hn; [|done].
    injection Hj as <-.
    replace (m + (length h + 1 - j))%nat with (S m) by lia.
    by apply (reach_S _ _ u).
Qed.

Lemma shortest_no_repeat (init : State) (h : list State) (g : State) (i j : nat)
    (s : State) :
  path_to init h g -> is_goal g -> min_steps init (length h) ->
  (i < j)%nat -> (h ++ [g]) !! i = Some s -> (h ++ [g]) !! j = Some s -> False.
Proof.
  intros Hp Hg [_ Hmin] Hij Hi Hj.
  assert (Hjle : (j <= length h)%nat).
  { apply lookup_lt_Some in Hj. rewrite length_app in Hj. simpl in Hj. lia. }
  rewrite lookup_app_l in Hi by lia.
  pose proof (path_to_prefix init h g s i Hp Hi) as Hri.
  destruct (decide (j < length h)%nat) as [Hlt|Hge].
  - rewrite lookup_app_l in Hj by done.
    pose proof (path_to_suffix init h g s j i Hp Hj Hri) as Hrg.
    specialize (Hmin _ g Hrg Hg). lia.
  - rewrite lookup_app_r in Hj by lia.
    replace (j - length h)%nat with O in Hj by lia. injection Hj as <-.
    specialize (Hmin _ g Hri Hg). lia.
Qed.

(** X19. The solution of a solved run visits no state twice: for every
    solvable configuration whose cars lie on the grid, the history that
    [run] logs starts at the initial state, ends at a goal state and
    lists pairwise different states. *)
Theorem run_history_repeats_no_state (init : State) :
  Forall car_ok init ->
  (exists g, reachable init g /\ is_goal g) ->
  exists fuel0, forall fuel, (fuel0 <= fuel)%nat ->
    exists h g boards,
      run fuel init = Some (print_moves (h ++ [g]) ++ [LogDebug boards], Ok tt) /\
      head (h ++ [g]) = Some init /\ is_goal g /\ NoDup (h ++ [g]).
Proof.
  intros Hok [g0 [Hreach Hgoal]].
  destruct (search_terminates init Hok) as [fuel0 Hrun].
  exists fuel0. intros fuel Hfuel.
  destruct (Hrun fuel Hfuel) as [r [Hr Hpost]].
  destruct Hpost as [(h & g & boards & Hp & Hg & Hmin & Hb & ->) | [Hnone _]];
    [|by destruct (Hnone g0 Hreach)].
  exists h, g, boards. split; [done|]. split; [|split; [done|]].
  - clear -Hp. induction Hp as [|h u v Hp IH Hstep]; [done|].
    destruct h as [|a h]; simpl in *; done.
  - apply NoDup_alt. intros i j s Hi Hj.
    destruct (Nat.lt_trichotomy i j) as [Hlt | [-> | Hgt]]; [|done|].
    + by destruct (shortest_no_repeat init h g i j s Hp Hg Hmin Hlt Hi Hj).
    + by destruct (shortest_no_repeat init h g j i s Hp Hg Hmin Hgt Hj Hi).
Qed.

Lemma run_history_repeats_no_state_witness :
  exists fuel0, forall fuel, (fuel0 <= fuel)%nat ->
    exists h g boards,
      run fuel blocked_once =
        Some (print_moves (h ++ [g]) ++ [LogDebug boards], Ok tt) /\
      head (h ++ [g]) = Some blocked_once /\ is_goal g /\ NoDup (h ++ [g]).
Proof.
  apply (run_history_repeats_no_state blocked_once).
  - exact blocked_once_ok.
  - exact blocked_once_solvable.
Defined.

(** ** The board of cars that do not overlap *)

Lemma label_from_covering (acc : string) (s : State) (p : Z * Z) :
  label_from acc s p =
  from_option Car.name acc (last (filter (fun car => p ∈ footprint car) s)).
Proof.
  revert acc. induction s as [|car s IH]; intros acc; [done|].
  rewrite label_from_cons, IH.
  destruct (decide (p ∈ footprint car)) as [Hin|Hout].
  - rewrite filter_cons_True by done. rewrite last_cons.
    by destruct (last (filter (fun car0 => p ∈ footprint car0) s)).
  - by rewrite filter_cons_False by done.
Qed.

Lemma footprints_disjoint_cons (car : Car.t) (s : State) :
  footprints_disjoint (car :: s) ->
  footprints_disjoint s /\
  forall p, p ∈ footprint car -> forall c, c ∈ s -> p ∉ footprint c.
Proof.
  intros Hdis. split.
  - intros i j ci cj Hne Hi Hj. apply (Hdis (S i) (S j)); [lia | done | done].
  - intros p Hp c [j Hj]%list_elem_of_lookup.
    by apply (Hdis O (S j) car c ltac:(lia) eq_refl Hj p).
Qed.

Lemma covering_at_most_one (s : State) (p : Z * Z) :
  footprints_disjoint s ->
  (length (filter (fun car => p ∈ footprint car) s) <= 1)%nat.
Proof.
  induction s as [|car s IH]; intros Hdis; [simpl; lia|].
  destruct (footprints_disjoint_cons car s Hdis) as [Hs Hcar].
  destruct (decide (p ∈ footprint car)) as [Hin|Hout].
  - rewrite filter_cons_True by done.
    assert (Hnil : filter (fun car0 => p ∈ footprint car0) s = []).
    { apply elem_of_nil_inv. intros c [Hc Hcs]%list_elem_of_filter.
      by apply (Hcar p Hin c). }
    rewrite Hnil. simpl. lia.
  - rewrite filter_cons_False by done. by apply IH.
Qed.

Lemma label_perm (s1 s2 : State) (p : Z * Z) :
  s1 ≡ₚ s2 -> footprints_disjoint s1 -> label s1 p = label s2 p.
Proof.
  intros Hperm Hdis. unfold label. rewrite !label_from_covering.
  pose proof (covering_at_most_one s1 p Hdis) as Hlen.
  assert (Hf : filter (fun car => p ∈ footprint car) s1 ≡ₚ
               filter (fun car => p ∈ footprint car) s2) by (by rewrite Hperm).
  destruct (filter (fun car => p ∈ footprint car) s1) as [|c [|c' l]].
  - by apply Permutation_nil_l in Hf as <-.
  - by apply Permutation_singleton_l in Hf as <-.
  - simpl in Hlen. lia.
Qed.

Lemma board_ext (b1 b2 : Board) :
  board_ok b1 -> board_ok b2 ->
  (forall p, in_grid p -> rd b1 p = rd b2 p) -> b1 = b2.
Proof.
  intros Hb1 Hb2 Hrd. apply list_eq. intros i.
  destruct (decide (i < 6)%nat) as [Hi|Hi].
  - destruct (board_ok_row b1 i Hb1 Hi) as (r1 & Hr1 & Hl1).
    destruct (board_ok_row b2 i Hb2 Hi) as (r2 & Hr2 & Hl2).
    rewrite Hr1, Hr2. f_equal. apply list_eq. intros j.
    destruct (decide (j < 6)%nat) as [Hj|Hj].
    + destruct (lookup_lt_is_Some_2 r1 j) as [v1 Hv1]; [lia|].
      destruct (lookup_lt_is_Some_2 r2 j) as [v2 Hv2]; [lia|].
      specialize (Hrd (Z.of_nat i, Z.of_nat j)). unfold rd in Hrd. simpl in Hrd.
      rewrite !Nat2Z.id, Hr1, Hr2 in Hrd. simpl in Hrd.
      rewrite Hv1, Hv2 in Hrd. simpl in Hrd. rewrite Hv1, Hv2. f_equal.
      apply Hrd. unfold in_grid, BOARD_SIZE. simpl. lia.
    + rewrite !lookup_ge_None_2 by lia. done.
  - destruct Hb1 as [Hl1 _], Hb2 as [Hl2 _].
    rewrite !lookup_ge_None_2; [done | rewrite Hl2 | rewrite Hl1];
      unfold BOARD_SIZE; lia.
Qed.

(** X20. The board does not depend on the order of cars that do not
    overlap: two states that list the same cars, with valid directions
    and footprints on the grid and pairwise disjoint, in different orders
    have the same board (though the states themselves differ). *)
Theorem get_board_order_free (s1 s2 : State) :
  s1 ≡ₚ s2 ->
  (forall car, car ∈ s1 -> valid_direction car) ->
  footprints_in_grid s1 -> footprints_disjoint s1 ->
  exists b, get_board s1 = Ok b /\ get_board s2 = Ok b.
Proof.
  intros Hperm Hv Hgrid Hdis.
  destruct (get_board_in_grid s1 Hv Hgrid) as (b1 & H1 & Hb1 & Hlab1).
  destruct (get_board_in_grid s2) as (b2 & H2 & Hb2 & Hlab2).
  { intros car Hcar. apply Hv. by rewrite Hperm. }
  { intros car Hcar. apply Hgrid. by rewrite Hperm. }
  exists b1. split; [done|]. rewrite H2. f_equal. symmetry.
  apply board_ext; [done | done |].
  intros p Hp.
  pose proof (Hlab1 p Hp) as E1. pose proof (Hlab2 p Hp) as E2.
  rewrite (board_get_in_grid b1 p Hb1 Hp) in E1.
  rewrite (board_get_in_grid b2 p Hb2 Hp) in E2.
  injection E1 as ->. injection E2 as ->. by apply label_perm.
Qed.

Lemma get_board_order_free_witness :
  exists b, get_board blocked_once = Ok b /\ get_board blocked_once_swapped = Ok b.
Proof.
  apply (get_board_order_free blocked_once blocked_once_swapped).
  - apply perm_swap.
  - intros car Hcar.
    repeat (apply elem_of_cons in Hcar as [->|Hcar]);
      [by left | by right | by apply elem_of_nil in Hcar].
  - two_cars_in_grid.
  - two_cars_disjoint.
Defined.
